(** * super-shell-mcp: the command policy and execution engine

    A shallow embedding of [src/services/command_service.py] (with the parts
    of [src/utils/command_whitelist.py] and [src/utils/platform.py] it
    calls), and the properties of the whitelist validator, the approval
    queue and the executor.

    Conventions of the embedding:
    - a Python [str] used as a command name, argument, id or message is a
      [string]; text decoded from a child's output is a list of Unicode
      code points ([text]);
    - a [dict] is a [gmap]; the two dictionaries of the service are fields of
      the record [CommandService];
    - a raised exception is the left injection of a sum [exn + A];
    - an [async def] is a function into [coro]: it runs up to its first
      [await] and returns the state reached there together with the code
      that runs when the awaited operation completes;
    - what the operating system, the clock and [uuid4] supply is an argument
      of the function that consumes it. *)

From Stdlib Require Import ZArith NArith Ascii String Lia.
From Stdlib.Strings Require Import Byte.
From stdpp Require Import gmap strings list fin_maps.


(** ** Python strings *)

Module PyStr.

(** [s.split(sep)] for a separator of one character: the pieces between
    the occurrences of [sep], never an empty list. *)
Fixpoint split (sep : ascii) (s : string) : list string :=
  match s with
  | EmptyString => [EmptyString]
  | String c rest =>
      if Ascii.eqb c sep then EmptyString :: split sep rest
      else match split sep rest with
           | [] => [String c EmptyString]
           | piece :: pieces => String c piece :: pieces
           end
  end.

(** [xs[-1]] on a list of strings that [split] returned. *)
Definition last_piece (xs : list string) : string := List.last xs EmptyString.

(** [list(s)]: a string seen as the sequence of its one-character strings,
    which is what [len], indexing and truthiness see when a [str] stands
    where a [List[str]] was expected. *)
Fixpoint chars (s : string) : list string :=
  match s with
  | EmptyString => []
  | String c rest => String c EmptyString :: chars rest
  end.

(** [c in s] for a character. *)
Fixpoint mem (c : ascii) (s : string) : bool :=
  match s with
  | EmptyString => false
  | String d rest => Ascii.eqb c d || mem c rest
  end.

(** [s.replace(old, new)] for [old] of one character. *)
Fixpoint replace (old : ascii) (new : string) (s : string) : string :=
  match s with
  | EmptyString => EmptyString
  | String c rest =>
      if Ascii.eqb c old then new +:+ replace old new rest
      else String c (replace old new rest)
  end.

(** [sep.join(xs)] *)
Fixpoint join (sep : string) (xs : list string) : string :=
  match xs with
  | [] => EmptyString
  | [x] => x
  | x :: rest => x +:+ sep +:+ join sep rest
  end.

End PyStr.

Definition slash : ascii := "/"%char.
Definition backslash : ascii := "\"%char.

(** [command.split("\\")[-1].split("/")[-1]], the expression both
    [_initialize_default_whitelist] and [_validate_command] use. *)
Definition base_name (command : string) : string :=
  PyStr.last_piece (PyStr.split slash (PyStr.last_piece (PyStr.split backslash command))).

(** ** Types *)

Inductive CommandSecurityLevel := SAFE | REQUIRES_APPROVAL | FORBIDDEN.

#[global] Instance CommandSecurityLevel_eq_dec : EqDecision CommandSecurityLevel.
Proof. solve_decision. Defined.

Inductive PlatformType := WINDOWS | MACOS | LINUX | UNKNOWN.

#[global] Instance PlatformType_eq_dec : EqDecision PlatformType.
Proof. solve_decision. Defined.

(** The exceptions the engine raises or lets through. *)
Inductive exn :=
| RuntimeError (msg : string)
| NameError (name : string)
| UnicodeDecodeError (reason : string)
| OSError (msg : string)
| OverflowError (msg : string).

(** [str(e)] *)
Definition exn_str (e : exn) : string :=
  match e with
  | RuntimeError msg => msg
  | NameError name => "name '" +:+ name +:+ "' is not defined"
  | UnicodeDecodeError reason => "'utf-8' codec can't decode: " +:+ reason
  | OSError msg => msg
  | OverflowError msg => msg
  end.

Module Entry.
(** [CommandWhitelistEntry]. [allowed_args] is declared
    [Optional[List[str]]]; a [str] passed there behaves as the list of its
    characters ([PyStr.chars]). *)
Record t := mk {
  command : string;
  security_level : CommandSecurityLevel;
  allowed_args : option (list string);
  description : option string
}.

Definition with_level (e : t) (l : CommandSecurityLevel) : t :=
  mk (command e) l (allowed_args e) (description e).

Definition with_allowed_args (e : t) (a : option (list string)) : t :=
  mk (command e) (security_level e) a (description e).
End Entry.

(** Text decoded from bytes: Unicode code points. *)
Definition text := list N.

Record CommandResult := mkResult { stdout : text; stderr : text }.

Module Pending.
(** [PendingCommand]. The two closures [resolve] and [reject] are either
    the stubs of the non-blocking queue ([handle = None]) or the pair
    closed over the future the blocking queue created ([handle = Some f],
    [f] the future's index in the loop). *)
Record t := mk {
  id : string;
  command : string;
  args : list string;
  requested_at : Z;
  requested_by : option string;
  handle : option nat
}.
End Pending.

(** ** Events published on the emitter *)

Definition approval_timeout_message : string :=
  "Command approval timed out. If you approved this command in the UI, " +:+
  "please use get_pending_commands and approve_command to complete the process.".

Inductive event :=
| EvPending (pending : Pending.t)                        (* "command:pending" *)
| EvApproved (commandId : string) (out err : text)       (* "command:approved" *)
| EvDenied (commandId : string) (reason : string)        (* "command:denied" *)
| EvFailed (commandId : string) (error : exn)            (* "command:failed" *)
| EvApprovalTimeout (commandId : string) (message : string). (* "command:approval_timeout" *)

(** ** The event loop's futures *)

Inductive future :=
| FutPending
| FutResult (res : CommandResult)
| FutException (err : exn).

Definition fut_done (f : future) : bool :=
  match f with FutPending => false | _ => true end.

(** ** The service *)

(** [CommandService], together with what it reaches through the running
    loop: [futures] are the futures [loop.create_future()] returned,
    [timers] the callbacks registered with [loop.call_later] (delay in
    milliseconds, id closed over), [emitted] what [self.emit] was called
    with, oldest first. *)
Record CommandService := mkService {
  shell : string;
  whitelist : gmap string Entry.t;
  pending_commands : gmap string Pending.t;
  default_timeout : Z;
  futures : list future;
  timers : list (Z * string);
  emitted : list event
}.

Definition set_whitelist (s : CommandService) (w : gmap string Entry.t) : CommandService :=
  mkService (shell s) w (pending_commands s) (default_timeout s) (futures s) (timers s) (emitted s).

Definition set_pending (s : CommandService) (p : gmap string Pending.t) : CommandService :=
  mkService (shell s) (whitelist s) p (default_timeout s) (futures s) (timers s) (emitted s).

Definition set_futures (s : CommandService) (f : list future) : CommandService :=
  mkService (shell s) (whitelist s) (pending_commands s) (default_timeout s) f (timers s) (emitted s).

Definition set_timers (s : CommandService) (t : list (Z * string)) : CommandService :=
  mkService (shell s) (whitelist s) (pending_commands s) (default_timeout s) (futures s) t (emitted s).

(** [self.emit(event, payload)]: every listener is called and its
    exceptions are swallowed, so the service sees no effect; the call is
    recorded. *)
Definition emit (s : CommandService) (e : event) : CommandService :=
  mkService (shell s) (whitelist s) (pending_commands s) (default_timeout s)
            (futures s) (timers s) (emitted s ++ [e]).

(** *** Public getters *)

Definition get_shell (s : CommandService) : string := shell s.

Definition get_whitelist (s : CommandService) : list Entry.t :=
  (map_to_list (whitelist s)).*2.

Definition get_pending_commands (s : CommandService) : list Pending.t :=
  (map_to_list (pending_commands s)).*2.

(** *** Whitelist management *)

Definition add_to_whitelist (s : CommandService) (entry : Entry.t) : CommandService :=
  set_whitelist s (<[Entry.command entry := entry]> (whitelist s)).

Definition remove_from_whitelist (s : CommandService) (command : string) : CommandService :=
  set_whitelist s (delete command (whitelist s)).

Definition update_security_level (s : CommandService) (command : string)
    (security_level : CommandSecurityLevel) : CommandService :=
  match whitelist s !! command with
  | Some entry => set_whitelist s (<[command := Entry.with_level entry security_level]> (whitelist s))
  | None => s
  end.

(** *** Validation *)

(** The [for idx, arg in enumerate(args)] loop of [_validate_command],
    entered at index [idx] with [args] still to visit: [Some l] when the
    loop returns [l], [None] when it runs to its end. *)
Fixpoint validate_loop (allowed_args : list string) (idx : nat) (args : list string)
    : option CommandSecurityLevel :=
  match args with
  | [] => None
  | arg :: rest =>
      let pat := if decide (idx < length allowed_args)%nat then allowed_args !! idx else None in
      match pat with
      | None => Some REQUIRES_APPROVAL
      | Some pat =>
          if decide (arg = pat) then validate_loop allowed_args (S idx) rest
          else Some REQUIRES_APPROVAL
      end
  end.

(** [if entry.allowed_args:] -- [None] and the empty sequence are both
    false. *)
Definition truthy_args (a : option (list string)) : option (list string) :=
  match a with
  | Some (p :: ps) => Some (p :: ps)
  | _ => None
  end.

Definition _validate_command (s : CommandService) (command : string) (args : list string)
    : option CommandSecurityLevel :=
  let base_command := base_name command in
  match whitelist s !! base_command with
  | None => None
  | Some entry =>
      if decide (Entry.security_level entry = FORBIDDEN) then Some FORBIDDEN
      else
        match truthy_args (Entry.allowed_args entry) with
        | Some allowed_args =>
            if decide (length allowed_args < length args)%nat then Some REQUIRES_APPROVAL
            else match validate_loop allowed_args 0 args with
                 | Some l => Some l
                 | None => Some (Entry.security_level entry)
                 end
        | None => Some (Entry.security_level entry)
        end
  end.

(** ** The default whitelist ([src/utils/command_whitelist.py]) *)

(** [CommandWhitelistEntry(command=..., security_level=..., description=...)],
    the keyword form [get_common_safe_commands] uses. *)
Definition entry_kw (command : string) (level : CommandSecurityLevel) (description : string)
    : Entry.t :=
  Entry.mk command level None (Some description).

(** [CommandWhitelistEntry(command, level, text)], the positional form of
    every other default: the third positional field of the dataclass is
    [allowed_args], so the text lands there and [description] keeps its
    default [None]. *)
Definition entry_pos (command : string) (level : CommandSecurityLevel) (third : string)
    : Entry.t :=
  Entry.mk command level (Some (PyStr.chars third)) None.

Definition get_common_safe_commands : list Entry.t :=
  [ entry_kw "echo" SAFE "Print text to standard output" ].

Definition get_windows_safe_commands : list Entry.t :=
  [ entry_pos "dir" SAFE "List directory contents";
    entry_pos "type" SAFE "Display the contents of a text file";
    entry_pos "cd" SAFE "Change directory";
    entry_pos "findstr" SAFE "Search for strings in files";
    entry_pos "where" SAFE "Locate programs";
    entry_pos "whoami" SAFE "Display current user";
    entry_pos "hostname" SAFE "Display computer name";
    entry_pos "ver" SAFE "Display operating system version" ].

Definition get_macos_safe_commands : list Entry.t :=
  [ entry_pos "ls" SAFE "List directory contents";
    entry_pos "pwd" SAFE "Print working directory";
    entry_pos "cat" SAFE "Concatenate and print files";
    entry_pos "grep" SAFE "Search for patterns in files";
    entry_pos "find" SAFE "Find files in a directory hierarchy";
    entry_pos "cd" SAFE "Change directory";
    entry_pos "head" SAFE "Output the first part of files";
    entry_pos "tail" SAFE "Output the last part of files";
    entry_pos "wc" SAFE "Print newline, word, and byte counts" ].

Definition get_linux_safe_commands : list Entry.t := get_macos_safe_commands.

Definition get_windows_approval_commands : list Entry.t :=
  [ entry_pos "copy" REQUIRES_APPROVAL "Copy files";
    entry_pos "move" REQUIRES_APPROVAL "Move files";
    entry_pos "mkdir" REQUIRES_APPROVAL "Create directories";
    entry_pos "rmdir" REQUIRES_APPROVAL "Remove directories";
    entry_pos "rename" REQUIRES_APPROVAL "Rename files";
    entry_pos "attrib" REQUIRES_APPROVAL "Change file attributes" ].

Definition get_macos_approval_commands : list Entry.t :=
  [ entry_pos "mv" REQUIRES_APPROVAL "Move (rename) files";
    entry_pos "cp" REQUIRES_APPROVAL "Copy files and directories";
    entry_pos "mkdir" REQUIRES_APPROVAL "Create directories";
    entry_pos "touch" REQUIRES_APPROVAL "Change file timestamps or create empty files";
    entry_pos "chmod" REQUIRES_APPROVAL "Change file mode bits";
    entry_pos "chown" REQUIRES_APPROVAL "Change file owner and group" ].

Definition get_linux_approval_commands : list Entry.t := get_macos_approval_commands.

Definition get_windows_forbidden_commands : list Entry.t :=
  [ entry_pos "del" FORBIDDEN "Delete files";
    entry_pos "erase" FORBIDDEN "Delete files";
    entry_pos "format" FORBIDDEN "Format a disk";
    entry_pos "runas" FORBIDDEN "Execute a program as another user" ].

Definition get_macos_forbidden_commands : list Entry.t :=
  [ entry_pos "rm" FORBIDDEN "Remove files or directories";
    entry_pos "sudo" FORBIDDEN "Execute a command as another user" ].

Definition get_linux_forbidden_commands : list Entry.t := get_macos_forbidden_commands.

Definition get_platform_specific_commands (platform : PlatformType) : list Entry.t :=
  let common_safe_commands := get_common_safe_commands in
  let '(safe_commands, approval_commands, forbidden_commands) :=
    match platform with
    | WINDOWS => (get_windows_safe_commands, get_windows_approval_commands,
                  get_windows_forbidden_commands)
    | MACOS => (get_macos_safe_commands, get_macos_approval_commands,
                get_macos_forbidden_commands)
    | LINUX => (get_linux_safe_commands, get_linux_approval_commands,
                get_linux_forbidden_commands)
    | UNKNOWN => (get_linux_safe_commands, get_linux_approval_commands,
                  get_linux_forbidden_commands)
    end in
  common_safe_commands ++ safe_commands ++ approval_commands ++ forbidden_commands.

(** [_initialize_default_whitelist]: each default is stored under its base
    name, later entries overwriting earlier ones. *)
Definition _initialize_default_whitelist (platform : PlatformType) (s : CommandService)
    : CommandService :=
  fold_left (fun acc entry =>
               let base := base_name (Entry.command entry) in
               set_whitelist acc (<[base := entry]> (whitelist acc)))
            (get_platform_specific_commands platform) s.

(** [get_default_shell] of [src/utils/platform.py]; [environ] is
    [os.environ.get]. *)
Definition get_default_shell (platform : PlatformType) (environ : string -> option string)
    : string :=
  match platform with
  | WINDOWS => default "cmd.exe" (environ "COMSPEC")
  | MACOS => "/bin/zsh"
  | LINUX => default "/bin/bash" (environ "SHELL")
  | UNKNOWN => default "/bin/sh" (environ "SHELL")
  end.

(** [CommandService.__init__]; [shell or get_default_shell()] takes the
    default for [None] and for the empty string. *)
Definition init (platform : PlatformType) (environ : string -> option string)
    (shell_arg : option string) (default_timeout_arg : Z) : CommandService :=
  let sh := match shell_arg with
            | Some (String c r) => String c r
            | _ => get_default_shell platform environ
            end in
  _initialize_default_whitelist platform
    (mkService sh ∅ ∅ default_timeout_arg [] [] []).

(** ** UTF-8 decoding: [bytes.decode(errors=...)] *)

Module Utf8.

Inductive errors := Strict | Replace.

(** U+FFFD, what the ["replace"] handler puts for each maximal ill-formed
    part of the input. *)
Definition replacement : N := 0xFFFD%N.

(** The decoder is between characters ([Start]) or inside one: [Need n acc
    lo hi] has [n] continuation bytes to come, the bits read so far in
    [acc], and accepts as next byte one in [lo..hi]. *)
Inductive state :=
| Start
| Need (remaining : nat) (acc lo hi : N).

Inductive lead :=
| Single (cp : N)
| Lead (remaining : nat) (acc lo hi : N)
| BadLead.

(** The first byte of a character; the ranges of the second byte exclude
    overlong forms, surrogates and code points above U+10FFFF. *)
Definition classify (b : N) : lead :=
  if (b <? 0x80)%N then Single b
  else if (b <? 0xC2)%N then BadLead
  else if (b <? 0xE0)%N then Lead 1 (N.land b 0x1F) 0x80 0xBF
  else if (b =? 0xE0)%N then Lead 2 (N.land b 0x0F) 0xA0 0xBF
  else if (b =? 0xED)%N then Lead 2 (N.land b 0x0F) 0x80 0x9F
  else if (b <? 0xF0)%N then Lead 2 (N.land b 0x0F) 0x80 0xBF
  else if (b =? 0xF0)%N then Lead 3 (N.land b 0x07) 0x90 0xBF
  else if (b <? 0xF4)%N then Lead 3 (N.land b 0x07) 0x80 0xBF
  else if (b =? 0xF4)%N then Lead 3 (N.land b 0x07) 0x80 0x8F
  else BadLead.

Definition step_start (mode : errors) (b : N) : exn + (text * state) :=
  match classify b with
  | Single cp => inr ([cp], Start)
  | Lead n acc lo hi => inr ([], Need n acc lo hi)
  | BadLead =>
      match mode with
      | Strict => inl (UnicodeDecodeError "invalid start byte")
      | Replace => inr ([replacement], Start)
      end
  end.

(** One byte. A byte that cannot continue the character in progress ends
    it (one replacement) and is looked at again as a first byte. *)
Definition step (mode : errors) (st : state) (b : N) : exn + (text * state) :=
  match st with
  | Start => step_start mode b
  | Need n acc lo hi =>
      if ((lo <=? b) && (b <=? hi))%N then
        let acc' := N.lor (N.shiftl acc 6) (N.land b 0x3F) in
        match n with
        | S (S m) => inr ([], Need (S m) acc' 0x80%N 0xBF%N)
        | _ => inr ([acc'], Start)
        end
      else
        match mode with
        | Strict => inl (UnicodeDecodeError "invalid continuation byte")
        | Replace =>
            match step_start Replace b with
            | inr (out, st') => inr (replacement :: out, st')
            | inl e => inl e
            end
        end
  end.

Definition finish (mode : errors) (st : state) : exn + text :=
  match st with
  | Start => inr []
  | Need _ _ _ _ =>
      match mode with
      | Strict => inl (UnicodeDecodeError "unexpected end of data")
      | Replace => inr [replacement]
      end
  end.

Fixpoint run (mode : errors) (st : state) (bs : list byte) : exn + text :=
  match bs with
  | [] => finish mode st
  | b :: rest =>
      match step mode st (Byte.to_N b) with
      | inl e => inl e
      | inr (out, st') =>
          match run mode st' rest with
          | inl e => inl e
          | inr t => inr (out ++ t)
          end
      end
  end.

Definition decode (mode : errors) (bs : list byte) : exn + text := run mode Start bs.

End Utf8.

(** ** UTF-8 encoding *)

Module Utf8Spec.


(** The UTF-8 encoding of a scalar value (RFC 3629), each byte as a number:
    one to four bytes, the bits of the code point dealt six at a time to
    the bytes after the first. *)
Definition encode1N (cp : N) : list N :=
  (if cp <? 0x80 then [cp]
   else if cp <? 0x800 then [0xC0 + cp / 64; 0x80 + cp mod 64]
   else if cp <? 0x10000 then
     [0xE0 + cp / 4096; 0x80 + (cp / 64) mod 64; 0x80 + cp mod 64]
   else [0xF0 + cp / 262144; 0x80 + (cp / 4096) mod 64; 0x80 + (cp / 64) mod 64;
         0x80 + cp mod 64])%N.

(** The byte of a number below 256. *)
Definition byte_of (n : N) : byte := default x00 (Byte.of_N n).

Definition encode1 (cp : N) : list byte := byte_of <$> encode1N cp.

(** [s.encode("utf-8")] of a text of scalar values. *)
Definition encode (cps : text) : list byte := concat (encode1 <$> cps).





End Utf8Spec.

(** ** [shlex.quote] *)

Module Shlex.

(** [\w] under [re.ASCII] *)
Definition is_word (c : ascii) : bool :=
  let n := nat_of_ascii c in
  ((48 <=? n) && (n <=? 57)) || ((65 <=? n) && (n <=? 90))
  || ((97 <=? n) && (n <=? 122)) || (n =? 95).

(** [_find_unsafe(s) is not None] for the pattern [[^\w@%+=:,./-]] *)
Fixpoint find_unsafe (s : string) : bool :=
  match s with
  | EmptyString => false
  | String c rest => negb (is_word c || PyStr.mem c "@%+=:,./-") || find_unsafe rest
  end.

Definition dquote : ascii := "034"%char.

(** The five characters that stand for one single quote inside a
    single-quoted word: quote, double quote, quote, double quote, quote. *)
Definition escaped_quote : string :=
  String "'" (String dquote (String "'" (String dquote (String "'" EmptyString)))).

Definition quote (s : string) : string :=
  match s with
  | EmptyString => "''"
  | _ => if find_unsafe s then "'" +:+ PyStr.replace "'" escaped_quote s +:+ "'"
         else s
  end.

End Shlex.

(** ** The operating system *)

(** A child process as the executor sees it: [communicate()] completes
    after [run_ms] milliseconds, with the two captured streams or with the
    error [io_error] of reading them; [returncode] is its exit status. *)
Record process := mkProcess {
  run_ms : Z;
  returncode : Z;
  stdout_b : list byte;
  stderr_b : list byte;
  io_error : option exn
}.

(** The outcome of [asyncio.create_subprocess_exec] on an argument vector. *)
Inductive spawn :=
| SpawnFails (e : exn)
| Spawns (proc : process).

Definition os_model := list string -> spawn.

Inductive os_effect :=
| OsSpawn (argv : list string)
| OsKill (argv : list string).

(** [asyncio.wait_for(proc.communicate(), timeout=...)], the timeout in
    milliseconds. *)
Inductive waited :=
| WaitDone (stdout_b stderr_b : list byte)
| WaitRaised (e : exn)
| WaitTimeout.

Definition wait_for_communicate (proc : process) (timeout_ms : Z) : waited :=
  if decide (run_ms proc < timeout_ms)%Z then
    match io_error proc with
    | Some e => WaitRaised e
    | None => WaitDone (stdout_b proc) (stderr_b proc)
    end
  else WaitTimeout.

(** ** The module's namespace *)

(** The names bound at module level in [command_service.py] by its imports
    and its definitions. *)
Definition module_globals : list string :=
  [ "annotations"; "asyncio"; "shlex"; "uuid"; "dataclass"; "field"; "Enum";
    "Callable"; "Dict"; "List"; "Optional"; "Sequence"; "Tuple";
    "get_default_shell"; "PlatformType"; "detect_platform";
    "EventEmitter"; "CommandSecurityLevel"; "CommandWhitelistEntry";
    "CommandResult"; "PendingCommand"; "CommandService" ].

(** The builtins the module's code refers to. *)
Definition builtins : list string :=
  [ "RuntimeError"; "ProcessLookupError"; "Exception"; "ValueError";
    "list"; "len"; "enumerate"; "str"; "super" ].

(** Looking a global name up at run time: module globals, then builtins,
    else [NameError]. *)
Definition load_global (name : string) : exn + unit :=
  if bool_decide (name ∈ module_globals) || bool_decide (name ∈ builtins)
  then inr tt else inl (NameError name).

(** ** Execution *)

(** Converting an [int] to a [float], as [timeout / 1000.0] does with its
    left operand, raises [OverflowError] when the integer rounds to a
    magnitude of [2^1024] or more: the largest [float] is [2^1024 - 2^971],
    and ties go to the even neighbour. *)
Definition float_overflows (n : Z) : bool :=
  (2 ^ 1024 - 2 ^ 970 <=? Z.abs n)%Z.

Section Executor.

(** [detect_platform()] and the operating system the service runs on. *)
Variable platform : PlatformType.
Variable os : os_model.

(** The argument vector [_run_now] hands to [create_subprocess_exec]. *)
Definition shell_cmd (s : CommandService) (command : string) (args : list string)
    : list string :=
  let cmdline := PyStr.join " " (Shlex.quote command :: map Shlex.quote args) in
  if decide (platform = WINDOWS) then [shell s; "/c"; cmdline]
  else [shell s; "-c"; cmdline].

(** [x.decode(errors="replace") if x else ""] *)
Definition decode_stream (x : list byte) : exn + text :=
  match x with
  | [] => inr []
  | _ => Utf8.decode Utf8.Replace x
  end.

(** [_run_now]: the value returned or the exception raised, and what was
    done to the operating system. The division [... / 1000.0] comes before
    the child is started and raises for an [int] no [float] can hold; past
    it the timeout is kept in milliseconds (the source hands the seconds to
    [wait_for]). *)
Definition _run_now (s : CommandService) (command : string) (args : list string)
    (timeout : option Z) : (exn + CommandResult) * list os_effect :=
  let argv := shell_cmd s command args in
  let timeout_ms := match timeout with
                    | Some t => t
                    | None => default_timeout s
                    end in
  if float_overflows timeout_ms
  then (inl (OverflowError "int too large to convert to float"), [])
  else
  match os argv with
  | SpawnFails e => (inl e, [])
  | Spawns proc =>
      match wait_for_communicate proc timeout_ms with
      | WaitTimeout =>
          (* except asyncio.TimeoutError: *)
          match load_global "contextlib" with
          | inl e => (inl e, [OsSpawn argv])
          | inr _ =>
              (inl (RuntimeError "Command execution failed: timeout"),
               [OsSpawn argv; OsKill argv])
          end
      | WaitRaised e => (inl e, [OsSpawn argv])
      | WaitDone out_b err_b =>
          match decode_stream out_b with
          | inl e => (inl e, [OsSpawn argv])
          | inr out =>
              match decode_stream err_b with
              | inl e => (inl e, [OsSpawn argv])
              | inr err => (inr (mkResult out err), [OsSpawn argv])
              end
          end
      end
  end.

End Executor.

(** ** Coroutines *)

(** An [async def] of the service run up to its first suspension:
    - [Return s r]: it finished in state [s] with [r];
    - [AwaitRun s command args timeout k]: it is suspended in [await
      self._run_now(command, args, timeout=timeout)], the service being in
      state [s]; when the run completes with [r] and the service is then in
      state [s'], it continues as [k s' r];
    - [AwaitFuture s fut]: it is suspended in [await fut] and returns what
      the future is completed with. *)
Inductive coro :=
| Return (s : CommandService) (r : exn + CommandResult)
| AwaitRun (s : CommandService) (command : string) (args : list string)
    (timeout : option Z)
    (k : CommandService -> exn + CommandResult -> CommandService * (exn + CommandResult))
| AwaitFuture (s : CommandService) (fut : nat).

(** The state of the service at the point the coroutine stops. *)
Definition coro_state (c : coro) : CommandService :=
  match c with
  | Return s _ => s
  | AwaitRun s _ _ _ _ => s
  | AwaitFuture s _ => s
  end.

(** What [await fut] gives once the future is done; [None] while the waiter
    is still blocked. *)
Definition await_future (s : CommandService) (fut : nat) : option (exn + CommandResult) :=
  match futures s !! fut with
  | Some (FutResult res) => Some (inr res)
  | Some (FutException err) => Some (inl err)
  | _ => None
  end.

(** The closure [resolve] of a pending command. *)
Definition resolve (pending : Pending.t) (res : CommandResult) (s : CommandService)
    : CommandService :=
  match Pending.handle pending with
  | None => s
  | Some fut =>
      match futures s !! fut with
      | Some f => if fut_done f then s
                  else set_futures s (<[fut := FutResult res]> (futures s))
      | None => s
      end
  end.

(** The closure [reject] of a pending command. *)
Definition reject (pending : Pending.t) (err : exn) (s : CommandService)
    : CommandService :=
  match Pending.handle pending with
  | None => s
  | Some fut =>
      match futures s !! fut with
      | Some f => if fut_done f then s
                  else set_futures s (<[fut := FutException err]> (futures s))
      | None => s
      end
  end.

(** The delay of the advisory timer, [5.0] seconds, in milliseconds. *)
Definition approval_timer_ms : Z := 5000.

(** The callback [_timeout_check] both queue functions register, closed
    over [cmd_id]. *)
Definition _timeout_check (cmd_id : string) (s : CommandService) : CommandService :=
  match pending_commands s !! cmd_id with
  | Some _ => emit s (EvApprovalTimeout cmd_id approval_timeout_message)
  | None => s
  end.

(** The loop running the [i]-th registered timer: it is taken off the
    loop's list and its callback is called. *)
Definition fire_timer (i : nat) (s : CommandService) : CommandService :=
  match timers s !! i with
  | Some (_, cmd_id) => _timeout_check cmd_id (set_timers s (delete i (timers s)))
  | None => s
  end.

(** [queue_command_for_approval_non_blocking]; [cmd_id] is what
    [str(uuid.uuid4())] returned and [now] what [loop.time()] returned. *)
Definition queue_command_for_approval_non_blocking (s : CommandService)
    (command : string) (args : option (list string)) (requested_by : option string)
    (cmd_id : string) (now : Z) : CommandService * string :=
  let args := default [] args in
  let pending := Pending.mk cmd_id command args now requested_by None in
  let s := set_pending s (<[cmd_id := pending]> (pending_commands s)) in
  let s := emit s (EvPending pending) in
  let s := set_timers s (timers s ++ [(approval_timer_ms, cmd_id)]) in
  (s, cmd_id).

(** [_queue_command_for_approval] *)
Definition _queue_command_for_approval (s : CommandService)
    (command : string) (args : option (list string)) (requested_by : option string)
    (cmd_id : string) (now : Z) : coro :=
  let args := default [] args in
  let fut := length (futures s) in
  let s := set_futures s (futures s ++ [FutPending]) in
  let pending := Pending.mk cmd_id command args now requested_by (Some fut) in
  let s := set_pending s (<[cmd_id := pending]> (pending_commands s)) in
  let s := emit s (EvPending pending) in
  let s := set_timers s (timers s ++ [(approval_timer_ms, cmd_id)]) in
  AwaitFuture s fut.

(** [execute_command] *)
Definition execute_command (s : CommandService) (command : string)
    (args : option (list string)) (timeout : option Z) (requested_by : option string)
    (cmd_id : string) (now : Z) : coro :=
  let args := default [] args in
  match _validate_command s command args with
  | None => Return s (inl (RuntimeError ("Command not whitelisted: " +:+ command)))
  | Some FORBIDDEN => Return s (inl (RuntimeError ("Command is forbidden: " +:+ command)))
  | Some REQUIRES_APPROVAL =>
      _queue_command_for_approval s command (Some args) requested_by cmd_id now
  | Some SAFE => AwaitRun s command args timeout (fun s' r => (s', r))
  end.

(** What [approve_command] does once [_run_now] has returned or raised:
    the [try] body after the [await], and the [except] clause. *)
Definition approve_resume (command_id : string) (pending : Pending.t)
    (s : CommandService) (r : exn + CommandResult)
    : CommandService * (exn + CommandResult) :=
  match r with
  | inr result =>
      let s := set_pending s (delete command_id (pending_commands s)) in
      let s := emit s (EvApproved command_id (stdout result) (stderr result)) in
      let s := resolve pending result s in
      (s, inr result)
  | inl e =>
      let s := set_pending s (delete command_id (pending_commands s)) in
      let s := emit s (EvFailed command_id e) in
      let s := reject pending e s in
      (s, inl e)
  end.

(** [approve_command] *)
Definition approve_command (s : CommandService) (command_id : string) : coro :=
  match pending_commands s !! command_id with
  | None => Return s (inl (RuntimeError ("No pending command with ID: " +:+ command_id)))
  | Some pending =>
      AwaitRun s (Pending.command pending) (Pending.args pending) None
               (approve_resume command_id pending)
  end.

(** [deny_command]; [reason = None] is the call that leaves the default
    ["Command denied"] in place. *)
Definition deny_command (s : CommandService) (command_id : string) (reason : option string)
    : CommandService * (exn + unit) :=
  let reason := default "Command denied" reason in
  match pending_commands s !! command_id with
  | None => (s, inl (RuntimeError ("No pending command with ID: " +:+ command_id)))
  | Some pending =>
      let s := set_pending s (delete command_id (pending_commands s)) in
      let s := emit s (EvDenied command_id reason) in
      let s := reject pending (RuntimeError reason) s in
      (s, inr tt)
  end.

(** A coroutine run with nothing else scheduled in between: [None] when it
    is blocked on a future nobody has completed. *)
Definition run_alone (platform : PlatformType) (os : os_model) (c : coro)
    : option (CommandService * (exn + CommandResult) * list os_effect) :=
  match c with
  | Return s r => Some (s, r, [])
  | AwaitRun s command args timeout k =>
      let '(r, fx) := _run_now platform os s command args timeout in
      Some (k s r, fx)
  | AwaitFuture s fut =>
      match await_future s fut with
      | Some r => Some (s, r, [])
      | None => None
      end
  end.

(** ** Services used in the examples *)

(** A service on Linux with no environment, the default timeout of the
    constructor and the default whitelist. *)
Definition linux_service : CommandService := init LINUX (fun _ => None) None 30000.

(** A service whose whitelist holds one entry. *)
Definition service_with (entry : Entry.t) : CommandService :=
  mkService "/bin/sh" {[ Entry.command entry := entry ]} ∅ 30000 [] [] [].


(** An operating system on which every child needs [ms] milliseconds, exits
    with [code] and writes [out] and [err]. *)
Definition os_running (ms code : Z) (out err : list byte) : os_model :=
  fun _ => Spawns (mkProcess ms code out err None).

(** An operating system on which no child can be started. *)
Definition os_no_spawn : os_model :=
  fun _ => SpawnFails (OSError "[Errno 2] No such file or directory").

(** The Linux service after [execute_command("mkdir", ["testdir"])] was
    called and queued under the id ["id-1"]. *)
Definition queued_service : CommandService :=
  coro_state (execute_command linux_service "mkdir" (Some ["testdir"]) None None "id-1" 0).

(** ** The registry as it evolves *)

#[global] Instance Entry_eq_dec : EqDecision Entry.t.
Proof. solve_decision. Defined.

(** A call of one of the three methods that change the whitelist. *)
Inductive registry_op :=
| RegAdd (entry : Entry.t)
| RegRemove (command : string)
| RegUpdate (command : string) (security_level : CommandSecurityLevel).

Definition apply_registry_op (s : CommandService) (o : registry_op) : CommandService :=
  match o with
  | RegAdd entry => add_to_whitelist s entry
  | RegRemove command => remove_from_whitelist s command
  | RegUpdate command security_level => update_security_level s command security_level
  end.

(** Every entry of the whitelist sits under its own [command] field. *)
Definition keyed_by_command (s : CommandService) : Prop :=
  ∀ k e, whitelist s !! k = Some e → Entry.command e = k.

(** ** The service over time *)

(** The service together with two books kept for the proofs: [issued], the
    record created for each id that was ever queued, and [running], the
    calls of [approve_command] that are suspended in [_run_now], each with
    the id it was given and the record it found. *)
Record world := mkWorld {
  svc : CommandService;
  issued : gmap string Pending.t;
  running : list (string * Pending.t)
}.

(** The [issued] book after a call that was given the fresh id [cmd_id]. *)
Definition record_issue (cmd_id : string) (s' : CommandService)
    (book : gmap string Pending.t) : gmap string Pending.t :=
  match pending_commands s' !! cmd_id with
  | Some p => <[cmd_id := p]> book
  | None => book
  end.

(** One thing happening to the service: a whitelist call, an
    [execute_command] or non-blocking queue call run to its first
    suspension (with an id [uuid4] never returned before), an
    [approve_command] reaching its [await], an [approve_command] resumed
    with the outcome [r] of its run, a [deny_command], or a timer firing. A
    safe [execute_command] resumed after its run changes nothing and needs
    no step. *)
Inductive step : world → world → Prop :=
| step_registry w o :
    step w (mkWorld (apply_registry_op (svc w) o) (issued w) (running w))
| step_execute w command args timeout requested_by cmd_id now :
    issued w !! cmd_id = None →
    step w (mkWorld
              (coro_state (execute_command (svc w) command args timeout requested_by
                                           cmd_id now))
              (record_issue cmd_id
                 (coro_state (execute_command (svc w) command args timeout requested_by
                                              cmd_id now))
                 (issued w))
              (running w))
| step_queue_non_blocking w command args requested_by cmd_id now :
    issued w !! cmd_id = None →
    step w (mkWorld
              (queue_command_for_approval_non_blocking (svc w) command args requested_by
                                                       cmd_id now).1
              (record_issue cmd_id
                 (queue_command_for_approval_non_blocking (svc w) command args
                                                          requested_by cmd_id now).1
                 (issued w))
              (running w))
| step_approve_begin w command_id pending :
    pending_commands (svc w) !! command_id = Some pending →
    step w (mkWorld (coro_state (approve_command (svc w) command_id)) (issued w)
                    ((command_id, pending) :: running w))
| step_approve_end w command_id pending r :
    (command_id, pending) ∈ running w →
    step w (mkWorld (approve_resume command_id pending (svc w) r).1 (issued w)
                    (running w))
| step_deny w command_id reason :
    step w (mkWorld (deny_command (svc w) command_id reason).1 (issued w) (running w))
| step_timer w i :
    step w (mkWorld (fire_timer i (svc w)) (issued w) (running w)).

(** The world right after the constructor. *)
Definition initial (platform : PlatformType) (environ : string → option string)
    (shell_arg : option string) (timeout : Z) : world :=
  mkWorld (init platform environ shell_arg timeout) ∅ [].

Definition reachable (w : world) : Prop :=
  ∃ platform environ shell_arg timeout,
    rtc step (initial platform environ shell_arg timeout) w.

(** The id an approved, denied or failed event is about. *)
Definition terminal_id (e : event) : option string :=
  match e with
  | EvApproved k _ _ => Some k
  | EvDenied k _ => Some k
  | EvFailed k _ => Some k
  | _ => None
  end.

(** What the books and the service must agree on. *)
Record consistent (w : world) : Prop := mkConsistent {
  pending_issued : ∀ k p, pending_commands (svc w) !! k = Some p → issued w !! k = Some p;
  issued_id : ∀ k p, issued w !! k = Some p → Pending.id p = k;
  handle_bound : ∀ k p fut, issued w !! k = Some p → Pending.handle p = Some fut →
                            (fut < length (futures (svc w)))%nat;
  handle_inj : ∀ k1 k2 p1 p2 fut,
      issued w !! k1 = Some p1 → issued w !! k2 = Some p2 →
      Pending.handle p1 = Some fut → Pending.handle p2 = Some fut → k1 = k2;
  pending_blocked : ∀ k p fut, pending_commands (svc w) !! k = Some p →
                               Pending.handle p = Some fut →
                               futures (svc w) !! fut = Some FutPending;
  removed_done : ∀ k p fut, issued w !! k = Some p →
                            pending_commands (svc w) !! k = None →
                            Pending.handle p = Some fut →
                            ∃ f, futures (svc w) !! fut = Some f ∧ fut_done f = true;
  running_issued : ∀ k p, (k, p) ∈ running w → issued w !! k = Some p;
  issued_announced : ∀ k p, issued w !! k = Some p → EvPending p ∈ emitted (svc w);
  terminal_after_pending : ∀ pre e post k,
      emitted (svc w) = pre ++ e :: post → terminal_id e = Some k →
      ∃ p, Pending.id p = k ∧ EvPending p ∈ pre
}.

(** ** The dispatch layer's mirror ([src/main.py]) *)

(** What the five listeners of [main.py] act on: the dictionary
    [pending_approvals] (id to command and arguments), the calls made to the
    logger (level and message) and the lines printed to standard error. *)
Record dispatch := mkDispatch {
  pending_approvals : gmap string (string * list string);
  logged : list (string * string);
  printed : list string
}.

Definition say (d : dispatch) (level line : string) : dispatch :=
  mkDispatch (pending_approvals d) (logged d ++ [(level, line)]) (printed d ++ [line]).

Definition set_approvals (d : dispatch) (m : gmap string (string * list string)) : dispatch :=
  mkDispatch m (logged d) (printed d).

(** [_on_pending], [_on_approved], [_on_denied], [_on_failed] and
    [_on_approval_timeout], chosen by the event they are registered for. *)
Definition on_event (d : dispatch) (e : event) : dispatch :=
  match e with
  | EvPending p =>
      let d := say d "INFO"
                 ("[Pending Command] ID: " +:+ Pending.id p +:+ ", Command: " +:+
                  Pending.command p +:+ " " +:+ PyStr.join " " (Pending.args p)) in
      set_approvals d (<[Pending.id p := (Pending.command p, Pending.args p)]>
                         (pending_approvals d))
  | EvApproved cid _ _ =>
      let d := say d "INFO" ("[Approved Command] ID: " +:+ cid) in
      match pending_approvals d !! cid with
      | Some _ => set_approvals d (delete cid (pending_approvals d))
      | None => d
      end
  | EvDenied cid reason =>
      let d := say d "INFO" ("[Denied Command] ID: " +:+ cid +:+ ", Reason: " +:+ reason) in
      set_approvals d (delete cid (pending_approvals d))
  | EvFailed cid err =>
      let msg := exn_str err in
      let d := say d "ERROR" ("[Failed Command] ID: " +:+ cid +:+ ", Error: " +:+ msg) in
      set_approvals d (delete cid (pending_approvals d))
  | EvApprovalTimeout cid msg =>
      say d "ERROR" ("[Approval Timeout] ID: " +:+ cid +:+ ", Message: " +:+ msg)
  end.

(** The dispatch layer after the listeners have seen the events. *)
Definition dispatch_after (events : list event) : dispatch :=
  fold_left on_event events (mkDispatch ∅ [] []).

(** How a queue call changes the service: the record goes under its id, the
    pending event is published, and the blocking form adds one future. *)
Definition queued (s s' : CommandService) (k : string) (p : Pending.t) : Prop :=
  pending_commands s' = <[k := p]> (pending_commands s) ∧
  emitted s' = emitted s ++ [EvPending p] ∧
  Pending.id p = k ∧
  ((Pending.handle p = None ∧ futures s' = futures s) ∨
   (Pending.handle p = Some (length (futures s)) ∧
    futures s' = futures s ++ [FutPending])).

(** How a decision changes the service: the id leaves the pending mapping,
    one event about it is published, and of the futures only the one of the
    record can change, from pending to done. *)
Definition settled (s s' : CommandService) (k : string) (p : Pending.t) : Prop :=
  pending_commands s' = delete k (pending_commands s) ∧
  (∃ e, emitted s' = emitted s ++ [e] ∧ terminal_id e = Some k) ∧
  length (futures s') = length (futures s) ∧
  (∀ i, Pending.handle p ≠ Some i → futures s' !! i = futures s !! i) ∧
  (∀ i, Pending.handle p = Some i → (i < length (futures s))%nat →
        ∃ f, futures s' !! i = Some f ∧ fut_done f = true) ∧
  (∀ i f, futures s !! i = Some f → fut_done f = true → futures s' !! i = Some f).

(** The world right after the constructor on Linux. *)
Definition linux_world : world := initial LINUX (fun _ => None) None 30000.

(** The world after one call [execute_command("mkdir", ["testdir"])] that was
    given the id ["id-1"]. *)
Definition queued_world : world :=
  mkWorld
    (coro_state (execute_command (svc linux_world) "mkdir" (Some ["testdir"]) None None
                                 "id-1" 0))
    (record_issue "id-1"
       (coro_state (execute_command (svc linux_world) "mkdir" (Some ["testdir"]) None None
                                    "id-1" 0))
       (issued linux_world))
    (running linux_world).

(** The same world after [deny_command("id-1", "policy")]. *)
Definition denied_world : world :=
  mkWorld (deny_command (svc queued_world) "id-1" (Some "policy")).1
          (issued queued_world) (running queued_world).

(** What [_on_pending] keeps of a record. *)
Definition summary (p : Pending.t) : string * list string :=
  (Pending.command p, Pending.args p).

(** The mirror of [main.py] agrees with the pending mapping. *)
Definition mirrored (s : CommandService) : Prop :=
  pending_approvals (dispatch_after (emitted s)) = summary <$> pending_commands s.

(** The record queued under ["id-1"] in [queued_world]. *)
Definition mkdir_record : Pending.t :=
  Pending.mk "id-1" "mkdir" ["testdir"] 0 None (Some 0%nat).

(** The world in which an [approve_command("id-1")] is suspended in its run
    and [deny_command("id-1", "policy")] has been called meanwhile. *)
Definition racing_world : world :=
  mkWorld (deny_command (svc queued_world) "id-1" (Some "policy")).1
          (issued queued_world) [("id-1", mkdir_record)].

(** [racing_world] after the suspended [approve_command] has been resumed
    with a successful run that printed nothing. *)
Definition resumed_world : world :=
  mkWorld (approve_resume "id-1" mkdir_record (svc racing_world) (inr (mkResult [] []))).1
          (issued racing_world) (running racing_world).

(** ** The tools of [src/main.py] *)

(** A [str] of the program as text: the code points of its characters. *)
Definition text_of (s : string) : text := N_of_ascii <$> list_ascii_of_string s.

(** The line feed, as a string and as text. *)
Definition nl : string := String "010"%char EmptyString.

(** [sep.join(xs)] on text. *)
Fixpoint join_text (sep : text) (xs : list text) : text :=
  match xs with
  | [] => []
  | [x] => x
  | x :: rest => x ++ sep ++ join_text sep rest
  end.

(** [CommandSecurityLevel.value] *)
Definition level_value (l : CommandSecurityLevel) : string :=
  match l with
  | SAFE => "safe"
  | REQUIRES_APPROVAL => "requires_approval"
  | FORBIDDEN => "forbidden"
  end.

(** [posixpath.basename]: what follows the last slash. *)
Definition posixpath_basename (p : string) : string :=
  PyStr.last_piece (PyStr.split slash p).

(** A tool handler run up to its first suspension: it has replied, or it
    awaits a coroutine of the service and will turn its outcome into the
    reply with [k]. *)
Inductive tool :=
| Replied (s : CommandService) (response : text)
| Awaiting (c : coro) (k : exn + CommandResult → text).

(** A tool handler run with nothing else scheduled in between. *)
Definition run_tool (platform : PlatformType) (os : os_model) (t : tool)
    : option (CommandService * text * list os_effect) :=
  match t with
  | Replied s response => Some (s, response, [])
  | Awaiting c k =>
      match run_alone platform os c with
      | Some (s, r, fx) => Some (s, k r, fx)
      | None => None
      end
  end.

(** A tool handler suspended in [await self._run_now(...)] of the coroutine
    it awaits, resumed with the outcome [r] of the run when the service is
    in state [s']: the state it leaves and its reply. *)
Definition resume_tool (t : tool) (s' : CommandService) (r : exn + CommandResult)
    : option (CommandService * text) :=
  match t with
  | Awaiting (AwaitRun _ _ _ _ k) reply => Some ((k s' r).1, reply (k s' r).2)
  | _ => None
  end.

(** The handlers registered with [@mcp.tool], acting on the module's
    [command_service]. Their calls to the logger and their prints to
    standard error, which touch neither the service nor the reply, are left
    out. *)
Module Tools.
Section Tools.

(** [os.path.basename] of the platform the server runs on. *)
Variable basename : string → string.

(** [next((e for e in whitelist if e.command == base_command), None)] *)
Definition wl_entry (s : CommandService) (command : string) : option Entry.t :=
  let base_command := basename command in
  let whitelist := get_whitelist s in
  List.find (fun e => bool_decide (Entry.command e = base_command)) whitelist.

(** The reply built from what [command_service.execute_command] returned or
    raised. *)
Definition execute_response (r : exn + CommandResult) : text :=
  match r with
  | inr result =>
      let parts := [stdout result] ++
                   match stderr result with
                   | [] => []
                   | _ => [text_of "Error output: " ++ stderr result]
                   end in
      join_text (text_of nl) (filter (fun p => p ≠ []) parts)
  | inl e => text_of ("Command execution failed: " +:+ exn_str e)
  end.

(** The tool [execute_command]; [cmd_id] and [now] are what [uuid4] and the
    loop's clock give to the queue call that is made. *)
Definition execute_command (s : CommandService) (command : string)
    (args : option (list string)) (cmd_id : string) (now : Z) : tool :=
  let args := default [] args in
  let queue_it :=
    match wl_entry s command with
    | Some e => bool_decide (Entry.security_level e = REQUIRES_APPROVAL)
    | None => false
    end in
  if queue_it then
    let '(s, cmd_id) :=
      queue_command_for_approval_non_blocking s command (Some args) None cmd_id now in
    Replied s (text_of ("This command requires approval. " +:+
                        "It has been queued with ID: " +:+ cmd_id +:+ nl +:+ nl +:+
                        "Please approve this command in the UI or use the " +:+
                        "'approve_command' tool with this command ID."))
  else
    Awaiting (execute_command s command (Some args) None None cmd_id now) execute_response.

(** The level the tools [add_to_whitelist] and [update_security_level] read
    from their [securityLevel] argument. *)
Definition level (securityLevel : string) : CommandSecurityLevel :=
  if decide (securityLevel = "safe") then SAFE
  else if decide (securityLevel = "requires_approval") then REQUIRES_APPROVAL
  else FORBIDDEN.

(** The tool [add_to_whitelist] *)
Definition add_to_whitelist (s : CommandService) (command securityLevel : string)
    (description : option string) : CommandService * string :=
  let entry := Entry.mk command (level securityLevel) None description in
  (add_to_whitelist s entry,
   "Command '" +:+ command +:+ "' added to whitelist with security level '" +:+
   securityLevel +:+ "'").

(** The tool [update_security_level] *)
Definition update_security_level (s : CommandService) (command securityLevel : string)
    : CommandService * string :=
  (update_security_level s command (level securityLevel),
   "Security level for command '" +:+ command +:+ "' updated to '" +:+
   securityLevel +:+ "'").

(** The tool [remove_from_whitelist] *)
Definition remove_from_whitelist (s : CommandService) (command : string)
    : CommandService * string :=
  (remove_from_whitelist s command, "Command '" +:+ command +:+ "' removed from whitelist").

(** The reply built from what [command_service.approve_command] returned or
    raised. *)
Definition approve_response (r : exn + CommandResult) : text :=
  match r with
  | inr result =>
      let parts := [text_of ("Command approved and executed successfully." +:+ nl +:+
                             "Output: ") ++ stdout result] ++
                   match stderr result with
                   | [] => []
                   | _ => [text_of "Error output: " ++ stderr result]
                   end in
      join_text (text_of nl) parts
  | inl e => text_of ("Command approval failed: " +:+ exn_str e)
  end.

(** The tool [approve_command]: what it looks up before the call feeds the
    log only. *)
Definition approve_command (s : CommandService) (commandId : string) : tool :=
  Awaiting (approve_command s commandId) approve_response.

(** [reason or "Command denied"] and the like: [None] and the empty string
    are both false. *)
Definition truthy (x : option string) : option string :=
  match x with
  | Some (String c r) => Some (String c r)
  | _ => None
  end.

(** The tool [deny_command] *)
Definition deny_command (s : CommandService) (commandId : string) (reason : option string)
    : CommandService * string :=
  match deny_command s commandId (Some (default "Command denied" (truthy reason))) with
  | (s, inr _) =>
      (s, "Command denied" +:+ match truthy reason with
                               | Some reason => ": " +:+ reason
                               | None => EmptyString
                               end)
  | (s, inl e) => (s, "Command denial failed: " +:+ exn_str e)
  end.

End Tools.
End Tools.

(** ** The logger ([src/utils/logger.py]) *)

(** What the logger asks of its host: [Path(p).parent] as a string, the
    error [mkdir(parents=True, exist_ok=True)] raises on a directory, if
    any, and the error [open(p, mode="w")] raises on a path, if any. *)
Record host := mkHost {
  parent : string → string;
  mkdir : string → option exn;
  open_w : string → option exn
}.

Module Logger.

(** A [Logger] object; [file_stream] holds the path the open stream writes
    to. *)
Record t := mk {
  log_file : string;
  enabled : bool;
  file_stream : option string
}.

(** The line [log] writes. *)
Definition log_message (timestamp level message : string) : string :=
  "[" +:+ timestamp +:+ "] [" +:+ level +:+ "] " +:+ message +:+ nl.

(** [Logger.log]; [timestamp] is what [datetime.utcnow().isoformat()]
    returns in the call. The write is flushed at once, so the file holds
    it. *)
Definition log (self : t) (fs : gmap string string) (timestamp level message : string)
    : gmap string string :=
  if negb (enabled self) then fs
  else match file_stream self with
       | None => fs
       | Some path =>
           <[path := default EmptyString (fs !! path) +:+
                     log_message timestamp level message]> fs
       end.

Definition info (self : t) (fs : gmap string string) (timestamp message : string)
    : gmap string string :=
  log self fs timestamp "INFO" message.

Definition debug (self : t) (fs : gmap string string) (timestamp message : string)
    : gmap string string :=
  log self fs timestamp "DEBUG" message.

Definition error (self : t) (fs : gmap string string) (timestamp message : string)
    : gmap string string :=
  log self fs timestamp "ERROR" message.

(** [Logger.close] *)
Definition close (self : t) : t :=
  match file_stream self with
  | Some _ => mk (log_file self) (enabled self) None
  | None => self
  end.

(** [Logger.__init__]: the object or the exception [open] raised, the files
    and the lines printed to standard error. [started] is the time put in
    the header and [timestamp] the time [log] reads when it writes it. *)
Definition init (h : host) (log_file : string) (enabled : bool)
    (started timestamp : string) (fs : gmap string string) (printed : list string)
    : (exn + t) * gmap string string * list string :=
  if enabled then
    let log_dir := parent h log_file in
    let printed := printed ++ ["Creating log directory: " +:+ log_dir] in
    let '(log_file, printed) :=
      match mkdir h log_dir with
      | None => (log_file, printed)
      | Some error =>
          ("./super-shell-mcp.log",
           printed ++ ["Error creating log directory: " +:+ exn_str error;
                       "Falling back to log file: " +:+ "./super-shell-mcp.log"])
      end in
    match open_w h log_file with
    | Some e => (inl e, fs, printed)
    | None =>
        let fs := <[log_file := EmptyString]> fs in
        let self := mk log_file true (Some log_file) in
        (inr self, log self fs timestamp "INFO" ("Logging started at " +:+ started), printed)
    end
  else (inr (mk log_file false None), fs, printed).

End Logger.

(** The module [logger.py] at run time: the files (path to content), the lines printed to
    standard error and the singleton [_logger_instance], which every holder
    of the logger shares. *)
Record log_world := mkLogWorld {
  fs : gmap string string;
  err_lines : list string;
  _logger_instance : option Logger.t
}.

(** [get_logger]; the two times are read only when a logger is created. *)
Definition get_logger (h : host) (log_file : option string) (enabled : option bool)
    (started timestamp : string) (w : log_world) : (exn + Logger.t) * log_world :=
  match _logger_instance w with
  | Some l => (inr l, w)
  | None =>
      match log_file with
      | Some (String c rest) =>
          match Logger.init h (String c rest) (default true enabled) started timestamp
                            (fs w) (err_lines w) with
          | (inr l, fs', printed) => (inr l, mkLogWorld fs' printed (Some l))
          | (inl e, fs', printed) => (inl e, mkLogWorld fs' printed None)
          end
      | _ => (inl (RuntimeError "Logger not initialized"), w)
      end
  end.

(** A call made by a holder of the singleton, or a call of [get_logger]. *)
Inductive log_op :=
| OpLog (timestamp level message : string)
| OpClose
| OpGet (log_file : option string) (enabled : option bool) (started timestamp : string).

Definition apply_log_op (h : host) (w : log_world) (o : log_op) : log_world :=
  match o with
  | OpLog timestamp level message =>
      match _logger_instance w with
      | Some l => mkLogWorld (Logger.log l (fs w) timestamp level message) (err_lines w)
                             (Some l)
      | None => w
      end
  | OpClose =>
      match _logger_instance w with
      | Some l => mkLogWorld (fs w) (err_lines w) (Some (Logger.close l))
      | None => w
      end
  | OpGet log_file enabled started timestamp =>
      (get_logger h log_file enabled started timestamp w).2
  end.

(** What the calls [OpLog] of a sequence write, in order, up to the first
    [OpClose]. *)
Fixpoint transcript (ops : list log_op) : string :=
  match ops with
  | [] => EmptyString
  | OpLog timestamp level message :: rest =>
      Logger.log_message timestamp level message +:+ transcript rest
  | OpClose :: _ => EmptyString
  | OpGet _ _ _ _ :: rest => transcript rest
  end.

(** A host on which every directory can be made and every file opened. *)
Definition easy_host : host :=
  mkHost (fun _ => "/srv/logs") (fun _ => None) (fun _ => None).

(** A host on which no directory can be made. *)
Definition readonly_host : host :=
  mkHost (fun _ => "/srv/logs") (fun _ => Some (OSError "[Errno 30] Read-only file system"))
         (fun _ => None).

(** ** The event emitter ([EventEmitter] of [command_service.py]) *)

Module EventEmitter.
Section EventEmitter.

(** The callbacks, compared as [list.remove] compares them. *)
Context {C : Type} `{EqDecision C}.

(** [self._listeners.get(event, [])] *)
Definition listeners_of (listeners : gmap string (list C)) (event : string) : list C :=
  default [] (listeners !! event).

(** [l.remove(x)]: [l] without its first element equal to [x], or [None]
    for the [ValueError] raised when there is none. *)
Fixpoint list_remove (x : C) (l : list C) : option (list C) :=
  match l with
  | [] => None
  | y :: rest => if decide (y = x) then Some rest else cons y <$> list_remove x rest
  end.

(** [EventEmitter.on] *)
Definition on (listeners : gmap string (list C)) (event : string) (callback : C)
    : gmap string (list C) :=
  <[event := default [] (listeners !! event) ++ [callback]]> listeners.

(** [EventEmitter.off] *)
Definition off (listeners : gmap string (list C)) (event : string) (callback : C)
    : gmap string (list C) :=
  match listeners !! event with
  | Some l =>
      match list_remove callback l with
      | Some l' => <[event := l']> listeners
      | None => listeners
      end
  | None => listeners
  end.

(** [EventEmitter.emit]: [call cb payload s] is the state a call of [cb]
    leaves, whether it returns or raises; the loop runs over a copy of the
    list taken before the first call. *)
Definition emit {P S : Type} (call : C → P → S → S) (listeners : gmap string (list C))
    (event : string) (payload : P) (s : S) : S :=
  fold_left (fun s cb => call cb payload s) (listeners_of listeners event) s.

End EventEmitter.
End EventEmitter.

(** The five listeners of [main.py]. *)
Inductive handler :=
| _on_pending | _on_approved | _on_denied | _on_failed | _on_approval_timeout.

#[global] Instance handler_eq_dec : EqDecision handler.
Proof. solve_decision. Defined.

(** The name under which [command_service.py] emits each event. *)
Definition event_name (e : event) : string :=
  match e with
  | EvPending _ => "command:pending"
  | EvApproved _ _ _ => "command:approved"
  | EvDenied _ _ => "command:denied"
  | EvFailed _ _ => "command:failed"
  | EvApprovalTimeout _ _ => "command:approval_timeout"
  end.

(** The registrations [command_service.on(...)] of [main.py], in order. *)
Definition main_listeners : gmap string (list handler) :=
  let l := EventEmitter.on ∅ "command:pending" _on_pending in
  let l := EventEmitter.on l "command:approved" _on_approved in
  let l := EventEmitter.on l "command:denied" _on_denied in
  let l := EventEmitter.on l "command:failed" _on_failed in
  EventEmitter.on l "command:approval_timeout" _on_approval_timeout.

(** A call of a listener with a payload: each does the work [on_event]
    gives for the payload it is written for; given another payload its first
    access to the payload raises, before anything is done. *)
Definition call_handler (h : handler) (e : event) (d : dispatch) : dispatch :=
  match h, e with
  | _on_pending, EvPending _ => on_event d e
  | _on_approved, EvApproved _ _ _ => on_event d e
  | _on_denied, EvDenied _ _ => on_event d e
  | _on_failed, EvFailed _ _ => on_event d e
  | _on_approval_timeout, EvApprovalTimeout _ _ => on_event d e
  | _, _ => d
  end.

(** ** The platform ([src/utils/platform.py]) *)

(** [detect_platform]; [sys_platform] is [sys.platform]. *)
Definition detect_platform (sys_platform : string) : PlatformType :=
  if String.prefix "win32" sys_platform then WINDOWS
  else if String.prefix "darwin" sys_platform then MACOS
  else if String.prefix "linux" sys_platform then LINUX
  else UNKNOWN.

(** [get_shell_suggestions()[platform]] *)
Definition get_shell_suggestions (platform : PlatformType) : list string :=
  match platform with
  | WINDOWS => ["cmd.exe"; "powershell.exe"; "pwsh.exe"]
  | MACOS => ["/bin/zsh"; "/bin/bash"; "/bin/sh"]
  | LINUX => ["/bin/bash"; "/bin/sh"; "/bin/zsh"]
  | UNKNOWN => ["/bin/sh"]
  end.

(** [get_common_shell_locations] *)
Definition get_common_shell_locations (platform : PlatformType)
    (environ : string → option string) : list string :=
  match platform with
  | WINDOWS => [default "C:\Windows\System32\cmd.exe" (environ "COMSPEC");
                "C:\Windows\System32\WindowsPowerShell\v1.0\powershell.exe";
                "C:\Program Files\PowerShell\7\pwsh.exe"]
  | MACOS => ["/bin/zsh"; "/bin/bash"; "/bin/sh"]
  | LINUX => ["/bin/bash"; "/bin/sh"; "/usr/bin/bash"; "/usr/bin/zsh"]
  | UNKNOWN => ["/bin/sh"]
  end.

(** * Properties *)

(** ** Base names *)

Section BaseName.

Lemma app_nil (s : string) : EmptyString +:+ s = s.
Proof. reflexivity. Qed.

Lemma app_cons (c : ascii) (a b : string) : String c a +:+ b = String c (a +:+ b).
Proof. reflexivity. Qed.

Lemma split_last_spec (sep : ascii) (s : string) :
  let l := PyStr.split sep s in
  PyStr.mem sep (PyStr.last_piece l) = false ∧
  ((s = PyStr.last_piece l ∧ length l = 1%nat) ∨
   (∃ pre, s = pre +:+ String sep (PyStr.last_piece l) ∧ (2 <= length l)%nat)).
Proof.
  induction s as [|c rest IH]; cbn zeta.
  - split; [reflexivity | left; split; reflexivity].
  - cbn zeta in IH. destruct IH as [Hmem Hshape]. cbn [PyStr.split].
    destruct (Ascii.eqb_spec c sep) as [->|Hne].
    + assert (Hlast : PyStr.last_piece (EmptyString :: PyStr.split sep rest)
                      = PyStr.last_piece (PyStr.split sep rest)).
      { unfold PyStr.last_piece.
        destruct (PyStr.split sep rest) as [|p ps] eqn:E; [|reflexivity].
        destruct Hshape as [[_ Hl]|[_ [_ Hl]]]; cbn in Hl; lia. }
      rewrite Hlast. split; [exact Hmem|]. right.
      destruct Hshape as [[Heq Hl]|[pre [Heq Hl]]].
      * exists EmptyString. split; [rewrite <- Heq; reflexivity | cbn; lia].
      * exists (String sep pre). split; [rewrite Heq at 1; reflexivity | cbn; lia].
    + destruct (PyStr.split sep rest) as [|piece pieces] eqn:E.
      { destruct Hshape as [[_ Hl]|[_ [_ Hl]]]; cbn in Hl; lia. }
      destruct pieces as [|q qs].
      * unfold PyStr.last_piece in *. cbn in *.
        assert (Hc : Ascii.eqb sep c = false).
        { apply Ascii.eqb_neq. congruence. }
        rewrite Hc, Hmem. split; [reflexivity|]. left.
        destruct Hshape as [[Heq _]|[_ [_ Hl]]]; [|lia].
        split; [congruence | reflexivity].
      * assert (Hlast : PyStr.last_piece (String c piece :: q :: qs)
                        = PyStr.last_piece (piece :: q :: qs)) by reflexivity.
        rewrite Hlast. split; [exact Hmem|]. right.
        destruct Hshape as [[_ Hl]|[pre [Heq Hl]]]; [cbn in Hl; lia|].
        exists (String c pre). split; [rewrite Heq at 1; reflexivity | cbn in Hl; cbn; lia].
Qed.

Lemma mem_app_r (c : ascii) (pre s : string) :
  PyStr.mem c (pre +:+ s) = false → PyStr.mem c s = false.
Proof.
  induction pre as [|d pre IH]; [rewrite app_nil; tauto|].
  rewrite app_cons. cbn. intros H. apply orb_false_iff in H as [_ H]. auto.
Qed.

Lemma string_app_assoc (a b c : string) : (a +:+ b) +:+ c = a +:+ (b +:+ c).
Proof.
  induction a as [|x a IH]; [reflexivity|].
  rewrite !app_cons. congruence.
Qed.

(** The base name is the part of the command after the last separator of
    either kind: it is a suffix, holds no separator, and what precedes it
    is empty or ends in a separator. *)
Lemma base_name_spec (command : string) :
  ∃ pre, command = pre +:+ base_name command ∧
         PyStr.mem slash (base_name command) = false ∧
         PyStr.mem backslash (base_name command) = false ∧
         (pre = EmptyString ∨
          ∃ p sep, pre = p +:+ String sep EmptyString ∧ (sep = slash ∨ sep = backslash)).
Proof.
  unfold base_name.
  destruct (split_last_spec backslash command) as [Hb Hbs].
  set (inner := PyStr.last_piece (PyStr.split backslash command)) in *.
  destruct (split_last_spec slash inner) as [Hs Hss].
  set (base := PyStr.last_piece (PyStr.split slash inner)) in *.
  assert (Hbase_b : PyStr.mem backslash base = false).
  { destruct Hss as [[Heq _]|[pre [Heq _]]].
    - congruence.
    - rewrite Heq in Hb. apply mem_app_r in Hb. cbn in Hb. exact Hb. }
  assert (Hcat : ∀ p (c : ascii) r, p +:+ String c r = (p +:+ String c EmptyString) +:+ r).
  { intros p c r. rewrite string_app_assoc. reflexivity. }
  destruct Hss as [[Hi _]|[pre2 [Hi _]]]; destruct Hbs as [[Hc _]|[pre1 [Hc _]]].
  - exists EmptyString. rewrite app_nil.
    repeat split; try assumption; [congruence | left; reflexivity].
  - exists (pre1 +:+ String backslash EmptyString).
    repeat split; try assumption.
    + rewrite Hc, Hi at 1. rewrite <- Hi. apply Hcat.
    + right. exists pre1, backslash. split; [reflexivity | right; reflexivity].
  - exists (pre2 +:+ String slash EmptyString).
    repeat split; try assumption.
    + rewrite Hc, Hi at 1. apply Hcat.
    + right. exists pre2, slash. split; [reflexivity | left; reflexivity].
  - exists ((pre1 +:+ String backslash pre2) +:+ String slash EmptyString).
    repeat split; try assumption.
    + rewrite Hc at 1. rewrite Hi at 1.
      rewrite <- Hcat. rewrite string_app_assoc. reflexivity.
    + right. exists (pre1 +:+ String backslash pre2), slash.
      split; [reflexivity | left; reflexivity].
Qed.

(** A name without separators is its own base name. *)
Lemma split_no_sep (sep : ascii) (s : string) :
  PyStr.mem sep s = false → PyStr.split sep s = [s].
Proof.
  induction s as [|c rest IH]; cbn; [reflexivity|].
  intros H. apply orb_false_iff in H as [Hc Hr].
  rewrite Ascii.eqb_sym, Hc, (IH Hr). reflexivity.
Qed.

Lemma base_name_bare (command : string) :
  PyStr.mem slash command = false → PyStr.mem backslash command = false →
  base_name command = command.
Proof.
  intros Hs Hb. unfold base_name.
  rewrite (split_no_sep _ _ Hb). cbn. rewrite (split_no_sep _ _ Hs). reflexivity.
Qed.

End BaseName.

(** ** The validator *)

Section Validator.

Lemma validate_loop_cases (allowed : list string) (idx : nat) (args : list string) :
  validate_loop allowed idx args = None ∨
  validate_loop allowed idx args = Some REQUIRES_APPROVAL.
Proof.
  revert idx. induction args as [|arg rest IH]; intros idx; cbn; [by left|].
  case_decide; [|by right].
  destruct (allowed !! idx) as [pat|]; [|by right].
  case_decide; [apply IH | by right].
Qed.

(** The loop runs to its end exactly when every argument equals the
    pattern at its position. *)
Lemma validate_loop_None (allowed : list string) (idx : nat) (args : list string) :
  validate_loop allowed idx args = None ↔
  ∀ i a, args !! i = Some a → allowed !! (idx + i)%nat = Some a.
Proof.
  revert idx. induction args as [|arg rest IH]; intros idx; cbn.
  - split; [intros _ i a Hi; by rewrite lookup_nil in Hi | done].
  - case_decide as Hlt.
    + destruct (lookup_lt_is_Some_2 allowed idx Hlt) as [pat Hpat]. rewrite Hpat.
      case_decide as Heq.
      * subst pat. rewrite IH. split.
        -- intros H [|i] a Hi; cbn in Hi.
           ++ inversion Hi; subst. by rewrite Nat.add_0_r.
           ++ rewrite <- Nat.add_succ_comm. by apply H.
        -- intros H i a Hi. rewrite Nat.add_succ_comm. by apply (H (S i)).
      * split; [done|]. intros H. specialize (H 0%nat arg eq_refl).
        rewrite Nat.add_0_r in H. congruence.
    + split; [done|]. intros H. specialize (H 0%nat arg eq_refl).
      rewrite Nat.add_0_r in H. apply lookup_lt_Some in H. lia.
Qed.

(** What [_validate_command] returns for an entry that is not forbidden
    and whose [allowed_args] is a non-empty sequence. *)
Lemma validate_patterned (s : CommandService) (command : string) (args : list string)
    (entry : Entry.t) (allowed : list string) :
  whitelist s !! base_name command = Some entry →
  Entry.security_level entry ≠ FORBIDDEN →
  Entry.allowed_args entry = Some allowed →
  allowed ≠ [] →
  _validate_command s command args =
    match validate_loop allowed 0 args with
    | Some l => Some l
    | None => Some (Entry.security_level entry)
    end.
Proof.
  intros Hw Hf Ha Hne. unfold _validate_command. cbn zeta. rewrite Hw.
  case_decide; [done|]. rewrite Ha.
  destruct allowed as [|p ps]; [done|]. cbn [truthy_args].
  case_decide as Hlen; [|done].
  destruct (validate_loop_cases (p :: ps) 0 args) as [Hn|Hr]; [|by rewrite Hr].
  exfalso. rewrite validate_loop_None in Hn.
  destruct (lookup_lt_is_Some_2 args (length (p :: ps)) Hlen) as [a Ha'].
  specialize (Hn _ _ Ha'). apply lookup_lt_Some in Hn. cbn in Hn. lia.
Qed.

(** What [_validate_command] returns for an entry that is not forbidden
    and whose [allowed_args] is [None] or empty. *)
Lemma validate_unpatterned (s : CommandService) (command : string) (args : list string)
    (entry : Entry.t) :
  whitelist s !! base_name command = Some entry →
  Entry.security_level entry ≠ FORBIDDEN →
  truthy_args (Entry.allowed_args entry) = None →
  _validate_command s command args = Some (Entry.security_level entry).
Proof.
  intros Hw Hf Ha. unfold _validate_command. cbn zeta. rewrite Hw, Ha.
  by case_decide.
Qed.

Lemma validate_forbidden (s : CommandService) (command : string) (args : list string)
    (entry : Entry.t) :
  whitelist s !! base_name command = Some entry →
  Entry.security_level entry = FORBIDDEN →
  _validate_command s command args = Some FORBIDDEN.
Proof.
  intros Hw Hf. unfold _validate_command. cbn zeta. rewrite Hw. by case_decide.
Qed.

Lemma validate_absent (s : CommandService) (command : string) (args : list string) :
  whitelist s !! base_name command = None →
  _validate_command s command args = None.
Proof. intros Hw. unfold _validate_command. cbn zeta. by rewrite Hw. Qed.

End Validator.

(** C1, as amended: for an entry that is not FORBIDDEN and whose allowedArgs
    is a non-empty sequence, classification yields REQUIRES_APPROVAL when
    more arguments are supplied than there are patterns, yields
    REQUIRES_APPROVAL when some supplied argument differs from the pattern
    at its position, yields the entry's own level when every supplied
    argument equals the pattern at its position, and yields a level other
    than REQUIRES_APPROVAL only in that last case. *)
Theorem validate_allowed_args_escalates (s : CommandService) (command : string)
    (args : list string) (entry : Entry.t) (allowed : list string) :
  whitelist s !! base_name command = Some entry →
  Entry.security_level entry ≠ FORBIDDEN →
  Entry.allowed_args entry = Some allowed →
  allowed ≠ [] →
  ((length allowed < length args)%nat →
     _validate_command s command args = Some REQUIRES_APPROVAL) ∧
  ((∃ i a, args !! i = Some a ∧ allowed !! i ≠ Some a) →
     _validate_command s command args = Some REQUIRES_APPROVAL) ∧
  ((∀ i a, args !! i = Some a → allowed !! i = Some a) →
     _validate_command s command args = Some (Entry.security_level entry)) ∧
  (_validate_command s command args ≠ Some REQUIRES_APPROVAL →
     ∀ i a, args !! i = Some a → allowed !! i = Some a).
Proof.
  intros Hw Hf Ha Hne.
  rewrite (validate_patterned s command args entry allowed Hw Hf Ha Hne).
  pose proof (validate_loop_None allowed 0 args) as Hall. cbn in Hall.
  destruct (validate_loop_cases allowed 0 args) as [Hn|Hr].
  - rewrite Hn. pose proof (proj1 Hall Hn) as Hm. split; [|split; [|split]].
    + intros Hlen. destruct (lookup_lt_is_Some_2 args (length allowed) Hlen) as [a Hi].
      apply Hm, lookup_lt_Some in Hi. lia.
    + intros (i & a & Hi & Hno). by apply Hm in Hi.
    + done.
    + intros _. exact Hm.
  - rewrite Hr. split; [|split; [|split]]; try done.
    intros Hm. apply (proj2 Hall) in Hm. congruence.
Qed.

Lemma validate_allowed_args_escalates_witness :
  _validate_command (service_with (Entry.mk "git" SAFE (Some ["status"]) None))
                    "/usr/bin/git" ["push"] = Some REQUIRES_APPROVAL.
Proof.
  refine (proj1 (proj2 (validate_allowed_args_escalates
            (service_with (Entry.mk "git" SAFE (Some ["status"]) None))
            "/usr/bin/git" ["push"] (Entry.mk "git" SAFE (Some ["status"]) None)
            ["status"] _ _ _ _)) _).
  - vm_compute. reflexivity.
  - discriminate.
  - reflexivity.
  - discriminate.
  - exists 0%nat, "push". split; [reflexivity | discriminate].
Defined.

(** C1 as stated fails when allowedArgs is present and empty: one argument
    is more than the zero positions the entry has, and the command is still
    classified SAFE. *)
Lemma validate_allowed_args_empty_counterexample :
  let entry := Entry.mk "tool" SAFE (Some []) None in
  let s := service_with entry in
  whitelist s !! base_name "tool" = Some entry ∧
  Entry.security_level entry ≠ FORBIDDEN ∧
  Entry.allowed_args entry = Some [] ∧
  (length ([] : list string) < length ["x"])%nat ∧
  _validate_command s "tool" ["x"] = Some SAFE ∧
  _validate_command s "tool" ["x"] ≠ Some REQUIRES_APPROVAL.
Proof.
  cbn zeta. repeat split; try (vm_compute; reflexivity); try discriminate.
Qed.

(** C10: an entry that is not FORBIDDEN and whose allowed_args is the empty
    list is classified at its own level for every argument list, exactly as
    if allowed_args were absent. *)
Theorem validate_empty_allowed_args_as_absent (s : CommandService) (command : string)
    (args : list string) (entry : Entry.t) :
  whitelist s !! base_name command = Some entry →
  Entry.security_level entry ≠ FORBIDDEN →
  Entry.allowed_args entry = Some [] →
  _validate_command s command args = Some (Entry.security_level entry) ∧
  _validate_command s command args =
    _validate_command
      (set_whitelist s (<[base_name command := Entry.with_allowed_args entry None]>
                          (whitelist s)))
      command args.
Proof.
  intros Hw Hf Ha.
  assert (H1 : _validate_command s command args = Some (Entry.security_level entry)).
  { apply validate_unpatterned; [done | done | by rewrite Ha]. }
  split; [exact H1|]. rewrite H1. symmetry.
  apply (validate_unpatterned _ _ _ (Entry.with_allowed_args entry None)).
  - cbn. apply lookup_insert_eq.
  - exact Hf.
  - reflexivity.
Qed.

Lemma validate_empty_allowed_args_as_absent_witness :
  _validate_command (service_with (Entry.mk "tool" SAFE (Some []) None))
                    "tool" ["--anything"; "at all"] = Some SAFE.
Proof.
  refine (proj1 (validate_empty_allowed_args_as_absent
            (service_with (Entry.mk "tool" SAFE (Some []) None))
            "tool" ["--anything"; "at all"] (Entry.mk "tool" SAFE (Some []) None)
            _ _ _)).
  - vm_compute. reflexivity.
  - discriminate.
  - reflexivity.
Defined.

(** C4: a command whose registry entry, looked up by base name, is FORBIDDEN
    is classified FORBIDDEN for every argument list, whatever the entry's
    patterns, and [execute_command] raises the Forbidden error and leaves
    the service as it was. *)
Theorem forbidden_for_every_args (s : CommandService) (command : string)
    (entry : Entry.t) (args : option (list string)) (timeout : option Z)
    (requested_by : option string) (cmd_id : string) (now : Z) :
  whitelist s !! base_name command = Some entry →
  Entry.security_level entry = FORBIDDEN →
  (∀ args' : list string, _validate_command s command args' = Some FORBIDDEN) ∧
  execute_command s command args timeout requested_by cmd_id now =
    Return s (inl (RuntimeError ("Command is forbidden: " +:+ command))).
Proof.
  intros Hw Hf. split.
  - intros args'. by apply (validate_forbidden s command args' entry).
  - unfold execute_command. cbn zeta.
    by rewrite (validate_forbidden s command (default [] args) entry).
Qed.

Lemma forbidden_for_every_args_witness :
  execute_command linux_service "/bin/rm" (Some ["-rf"; "/tmp/x"]) None None "id-1" 0 =
    Return linux_service (inl (RuntimeError "Command is forbidden: /bin/rm")).
Proof.
  refine (proj2 (forbidden_for_every_args linux_service "/bin/rm"
            (entry_pos "rm" FORBIDDEN "Remove files or directories")
            (Some ["-rf"; "/tmp/x"]) None None "id-1" 0 _ _)).
  - vm_compute. reflexivity.
  - reflexivity.
Defined.

(** C5: classification looks the command up under its base name, the part
    after the last separator of either kind; when the registry has no entry
    under that name, classification gives no level and [execute_command]
    raises the NotWhitelisted error for every argument list, leaving the
    service, and so its pending mapping, as it was. *)
Theorem not_whitelisted_for_every_args (s : CommandService) (command : string)
    (args : option (list string)) (timeout : option Z)
    (requested_by : option string) (cmd_id : string) (now : Z) :
  whitelist s !! base_name command = None →
  (∃ pre, command = pre +:+ base_name command ∧
          PyStr.mem slash (base_name command) = false ∧
          PyStr.mem backslash (base_name command) = false ∧
          (pre = EmptyString ∨
           ∃ p sep, pre = p +:+ String sep EmptyString ∧ (sep = slash ∨ sep = backslash))) ∧
  (∀ args' : list string, _validate_command s command args' = None) ∧
  execute_command s command args timeout requested_by cmd_id now =
    Return s (inl (RuntimeError ("Command not whitelisted: " +:+ command))) ∧
  pending_commands
    (coro_state (execute_command s command args timeout requested_by cmd_id now))
  = pending_commands s.
Proof.
  intros Hw. split; [apply base_name_spec|].
  assert (He : execute_command s command args timeout requested_by cmd_id now =
               Return s (inl (RuntimeError ("Command not whitelisted: " +:+ command)))).
  { unfold execute_command. cbn zeta.
    by rewrite (validate_absent s command (default [] args)). }
  split; [intros args'; by apply validate_absent|].
  split; [exact He|]. by rewrite He.
Qed.

Lemma not_whitelisted_for_every_args_witness :
  execute_command linux_service "C:\tools/definitely_not_a_command" (Some ["x"])
                  None None "id-1" 0 =
    Return linux_service
      (inl (RuntimeError "Command not whitelisted: C:\tools/definitely_not_a_command")).
Proof.
  refine (proj1 (proj2 (proj2 (not_whitelisted_for_every_args linux_service
            "C:\tools/definitely_not_a_command" (Some ["x"]) None None "id-1" 0 _)))).
  vm_compute. reflexivity.
Defined.

(** ** Decoding *)

Section Decoding.

Import Utf8.




Lemma step_strict_replace (st : state) (b : N) (x : text * state) :
  step Strict st b = inr x → step Replace st b = inr x.
Proof.
  destruct st as [|n acc lo hi]; cbn [step].
  - unfold step_start. destruct (classify b); done.
  - destruct ((lo <=? b)%N && (b <=? hi)%N); done.
Qed.


(** On well-formed input the two modes agree. *)
Lemma run_strict_replace (bs : list byte) :
  ∀ st t, run Strict st bs = inr t → run Replace st bs = inr t.
Proof.
  induction bs as [|b rest IH]; intros st t; cbn [run].
  - destruct st; done.
  - destruct (step Strict st (Byte.to_N b)) as [e|[out st']] eqn:E; [done|].
    rewrite (step_strict_replace _ _ _ E).
    destruct (run Strict st' rest) as [e|t'] eqn:R; [done|].
    by rewrite (IH _ _ R).
Qed.


End Decoding.

(** ** The decoder against the encoding *)

Section Encoding.
Import Utf8 Utf8Spec.

Local Open Scope N_scope.




































End Encoding.

Section DecodingSpec.

Import Utf8 Utf8Spec.



End DecodingSpec.

Example encode_ascii_and_accent :
  Utf8Spec.encode [104%N; 0xE9%N] = [x68; xc3; xa9].
Proof. reflexivity. Qed.

Example encode_euro : Utf8Spec.encode [0x20AC%N] = [xe2; x82; xac].
Proof. reflexivity. Qed.

Example encode_last_scalar : Utf8Spec.encode [0x10FFFF%N] = [xf4; x8f; xbf; xbf].
Proof. reflexivity. Qed.

Example decode_replace_truncated :
  Utf8.decode Utf8.Replace [x68; x69; xe2; x82] = inr [104%N; 105%N; Utf8.replacement].
Proof. reflexivity. Qed.

Example decode_replace_euro :
  Utf8.decode Utf8.Replace [xe2; x82; xac] = inr [0x20AC%N].
Proof. reflexivity. Qed.

Example decode_replace_bad_continuation :
  Utf8.decode Utf8.Replace [xe2; x28; xa1] = inr [Utf8.replacement; 40%N; Utf8.replacement].
Proof. reflexivity. Qed.

Example decode_strict_raises :
  Utf8.decode Utf8.Strict [x68; xff] = inl (UnicodeDecodeError "invalid start byte").
Proof. reflexivity. Qed.

(** ** The executor *)

Section ExecutorFacts.

Variable platform : PlatformType.
Variable os : os_model.

(** What [_run_now] does when the child runs longer than the timeout in
    force: [contextlib] is not a name of the module, so the handler of
    [asyncio.TimeoutError] raises [NameError] before it reaches
    [proc.kill()]. *)
Lemma run_now_timeout_branch (s : CommandService) (command : string)
    (args : list string) (timeout : option Z) (proc : process) :
  os (shell_cmd platform s command args) = Spawns proc →
  float_overflows (match timeout with Some t => t | None => default_timeout s end) = false →
  (match timeout with Some t => t | None => default_timeout s end < run_ms proc)%Z →
  _run_now platform os s command args timeout =
    (inl (NameError "contextlib"), [OsSpawn (shell_cmd platform s command args)]).
Proof.
  intros Hos Hfl Hlate. unfold _run_now. cbn zeta. rewrite Hfl, Hos.
  unfold wait_for_communicate. case_decide; [lia|]. reflexivity.
Qed.

(** An [int] that no [float] can hold as timeout in force stops [_run_now]
    at the division, before any child is started. *)
Lemma run_now_overflow (s : CommandService) (command : string) (args : list string)
    (timeout : option Z) :
  float_overflows (match timeout with Some t => t | None => default_timeout s end) = true →
  _run_now platform os s command args timeout =
    (inl (OverflowError "int too large to convert to float"), []).
Proof. intros Hfl. unfold _run_now. cbn zeta. by rewrite Hfl. Qed.

End ExecutorFacts.



(** The exit status does not reach the result. *)
Lemma run_now_ignores_returncode (platform : PlatformType) (s : CommandService)
    (command : string) (args : list string) (timeout : option Z)
    (ms code code' : Z) (out err : list byte) :
  fst (_run_now platform (os_running ms code out err) s command args timeout) =
  fst (_run_now platform (os_running ms code' out err) s command args timeout).
Proof. reflexivity. Qed.

(** C3, on the code: a child that outlives a per-call timeout of 100 ms is
    not killed, and the call raises [NameError], not the timeout error. The
    same happens under the default timeout. *)
Theorem run_now_timeout_raises_name_error :
  _run_now LINUX (os_running 10000 0 [] []) linux_service "sleep" ["10"] (Some 100%Z) =
    (inl (NameError "contextlib"), [OsSpawn ["/bin/bash"; "-c"; "sleep 10"]]) ∧
  _run_now LINUX (os_running 40000 0 [] []) linux_service "sleep" ["40"] None =
    (inl (NameError "contextlib"), [OsSpawn ["/bin/bash"; "-c"; "sleep 40"]]) ∧
  exn_str (NameError "contextlib") = "name 'contextlib' is not defined" ∧
  load_global "contextlib" = inl (NameError "contextlib").
Proof. repeat split; vm_compute; reflexivity. Qed.

(** ** The registry *)

Section Registry.

Lemma whitelist_add (s : CommandService) (entry : Entry.t) :
  whitelist (add_to_whitelist s entry) = <[Entry.command entry := entry]> (whitelist s).
Proof. reflexivity. Qed.

(** [add_to_whitelist] stores the entry under [entry.command] as given, and
    the last entry stored under a name is the one found there. *)
Lemma add_to_whitelist_last_write_wins (s : CommandService) (e1 e2 : Entry.t) :
  Entry.command e1 = Entry.command e2 →
  whitelist (add_to_whitelist (add_to_whitelist s e1) e2) !! Entry.command e2 = Some e2 ∧
  whitelist (add_to_whitelist (add_to_whitelist s e1) e2) = whitelist (add_to_whitelist s e2).
Proof.
  intros Hc. rewrite !whitelist_add, Hc. split.
  - apply lookup_insert_eq.
  - apply insert_insert_eq.
Qed.

(** For an entry whose command is already a bare name, the stored entry is
    the one classification finds: added as SAFE and then as FORBIDDEN, the
    command is refused. *)
Lemma add_bare_forbidden_is_refused (s : CommandService) (e1 e2 : Entry.t)
    (args : option (list string)) (timeout : option Z) (requested_by : option string)
    (cmd_id : string) (now : Z) :
  Entry.command e1 = Entry.command e2 →
  base_name (Entry.command e2) = Entry.command e2 →
  Entry.security_level e2 = FORBIDDEN →
  execute_command (add_to_whitelist (add_to_whitelist s e1) e2) (Entry.command e2)
                  args timeout requested_by cmd_id now =
    Return (add_to_whitelist (add_to_whitelist s e1) e2)
           (inl (RuntimeError ("Command is forbidden: " +:+ Entry.command e2))).
Proof.
  intros Hc Hb Hf.
  destruct (add_to_whitelist_last_write_wins s e1 e2 Hc) as [Hl _].
  unfold execute_command. cbn zeta.
  rewrite (validate_forbidden _ _ _ e2); [done | by rewrite Hb | done].
Qed.

End Registry.

(** The scenario of the specification: [echo] added as SAFE, then as
    FORBIDDEN. *)
Example echo_safe_then_forbidden :
  let s := add_to_whitelist (add_to_whitelist linux_service (Entry.mk "echo" SAFE None None))
                            (Entry.mk "echo" FORBIDDEN None None) in
  execute_command s "echo" (Some []) None None "id-1" 0 =
    Return s (inl (RuntimeError "Command is forbidden: echo")).
Proof. vm_compute. reflexivity. Qed.

(** C6, on the code: an entry whose command carries a path is stored under
    the command as given, not under its base name. Added as SAFE and then as
    FORBIDDEN, ["/bin/echo"] is stored under the key ["/bin/echo"];
    classification looks under ["echo"], finds the default SAFE entry, and
    [execute_command] goes on to run the command. *)
Theorem add_to_whitelist_keeps_path_in_key :
  let forbidden := Entry.mk "/bin/echo" FORBIDDEN None None in
  let s := add_to_whitelist
             (add_to_whitelist linux_service (Entry.mk "/bin/echo" SAFE None None))
             forbidden in
  base_name "/bin/echo" = "echo" ∧
  whitelist s !! "/bin/echo" = Some forbidden ∧
  whitelist s !! "echo" = Some (entry_kw "echo" SAFE "Print text to standard output") ∧
  _validate_command s "/bin/echo" [] = Some SAFE ∧
  execute_command s "/bin/echo" (Some []) None None "id-1" 0 =
    AwaitRun s "/bin/echo" [] None (fun s' r => (s', r)).
Proof. cbn zeta. repeat split; vm_compute; reflexivity. Qed.

(** With no entry under the base name, the forbidden entry stored under the
    path is never found. *)
Example path_entry_is_unreachable :
  let s := add_to_whitelist (mkService "/bin/sh" ∅ ∅ 30000 [] [] [])
                            (Entry.mk "/opt/tool" FORBIDDEN None None) in
  execute_command s "/opt/tool" (Some []) None None "id-1" 0 =
    Return s (inl (RuntimeError "Command not whitelisted: /opt/tool")).
Proof. vm_compute. reflexivity. Qed.

(** ** The approval queue *)

Section Queue.

Lemma elem_of_get_pending_commands (s : CommandService) (p : Pending.t) :
  p ∈ get_pending_commands s ↔ ∃ k, pending_commands s !! k = Some p.
Proof.
  unfold get_pending_commands. rewrite list_elem_of_fmap. split.
  - intros ([k q] & -> & Hin). exists k. by apply elem_of_map_to_list.
  - intros [k Hk]. exists (k, p). split; [done|]. by apply elem_of_map_to_list.
Qed.

(** [reject] touches nothing but the future of the record. *)
Lemma reject_frame (pending : Pending.t) (err : exn) (s : CommandService) :
  pending_commands (reject pending err s) = pending_commands s ∧
  whitelist (reject pending err s) = whitelist s ∧
  emitted (reject pending err s) = emitted s ∧
  timers (reject pending err s) = timers s.
Proof.
  unfold reject. destruct (Pending.handle pending) as [fut|]; [|done].
  destruct (futures s !! fut) as [f|]; [|done]. by destruct (fut_done f).
Qed.

Lemma resolve_frame (pending : Pending.t) (res : CommandResult) (s : CommandService) :
  pending_commands (resolve pending res s) = pending_commands s ∧
  whitelist (resolve pending res s) = whitelist s ∧
  emitted (resolve pending res s) = emitted s ∧
  timers (resolve pending res s) = timers s.
Proof.
  unfold resolve. destruct (Pending.handle pending) as [fut|]; [|done].
  destruct (futures s !! fut) as [f|]; [|done]. by destruct (fut_done f).
Qed.

(** A waiter blocked on the record's future is woken with the error. *)
Lemma reject_wakes_waiter (pending : Pending.t) (err : exn) (s : CommandService)
    (fut : nat) :
  Pending.handle pending = Some fut →
  futures s !! fut = Some FutPending →
  await_future (reject pending err s) fut = Some (inl err).
Proof.
  intros Hh Hf. unfold reject, await_future. rewrite Hh, Hf. cbn.
  rewrite list_lookup_insert_eq; [done|]. by apply lookup_lt_Some in Hf.
Qed.

Lemma resolve_wakes_waiter (pending : Pending.t) (res : CommandResult)
    (s : CommandService) (fut : nat) :
  Pending.handle pending = Some fut →
  futures s !! fut = Some FutPending →
  await_future (resolve pending res s) fut = Some (inr res).
Proof.
  intros Hh Hf. unfold resolve, await_future. rewrite Hh, Hf. cbn.
  rewrite list_lookup_insert_eq; [done|]. by apply lookup_lt_Some in Hf.
Qed.

(** A future that is done is left as it is: the handle is one-shot. *)
Lemma reject_done_noop (pending : Pending.t) (err : exn) (s : CommandService)
    (fut : nat) (f : future) :
  Pending.handle pending = Some fut →
  futures s !! fut = Some f → fut_done f = true →
  reject pending err s = s.
Proof. intros Hh Hf Hd. unfold reject. by rewrite Hh, Hf, Hd. Qed.

Lemma resolve_done_noop (pending : Pending.t) (res : CommandResult) (s : CommandService)
    (fut : nat) (f : future) :
  Pending.handle pending = Some fut →
  futures s !! fut = Some f → fut_done f = true →
  resolve pending res s = s.
Proof. intros Hh Hf Hd. unfold resolve. by rewrite Hh, Hf, Hd. Qed.

(** What the [except] clause of [approve_command] leaves behind. *)
Lemma approve_resume_failure (command_id : string) (pending : Pending.t)
    (s : CommandService) (e : exn) :
  pending_commands (approve_resume command_id pending s (inl e)).1
    = delete command_id (pending_commands s) ∧
  emitted (approve_resume command_id pending s (inl e)).1
    = emitted s ++ [EvFailed command_id e] ∧
  (approve_resume command_id pending s (inl e)).2 = inl e.
Proof.
  cbn [approve_resume fst snd].
  destruct (reject_frame pending e
              (emit (set_pending s (delete command_id (pending_commands s)))
                    (EvFailed command_id e))) as (-> & _ & -> & _).
  done.
Qed.

Lemma approve_resume_success (command_id : string) (pending : Pending.t)
    (s : CommandService) (res : CommandResult) :
  pending_commands (approve_resume command_id pending s (inr res)).1
    = delete command_id (pending_commands s) ∧
  emitted (approve_resume command_id pending s (inr res)).1
    = emitted s ++ [EvApproved command_id (stdout res) (stderr res)] ∧
  (approve_resume command_id pending s (inr res)).2 = inr res.
Proof.
  cbn [approve_resume fst snd].
  destruct (resolve_frame pending res
              (emit (set_pending s (delete command_id (pending_commands s)))
                    (EvApproved command_id (stdout res) (stderr res))))
    as (-> & _ & -> & _).
  done.
Qed.

End Queue.

(** C2, as amended: for an id in the pending mapping, [approve_command]
    reaches the execution of the command with the record still in the
    mapping, and removes it once the execution has returned or failed.
    When it has failed, whatever state the service is in by then, the
    mapping loses the id, a failed event with the id and the error is
    published and the error is raised to the caller of [approve_command];
    the record's handle is completed with the error when it is still
    pending, and a handle already completed, as by a [deny_command] issued
    during the execution, keeps what it holds. *)
Theorem approve_failure_removes_after_run (s : CommandService) (command_id : string)
    (pending : Pending.t) :
  pending_commands s !! command_id = Some pending →
  approve_command s command_id =
    AwaitRun s (Pending.command pending) (Pending.args pending) None
             (approve_resume command_id pending) ∧
  pending_commands (coro_state (approve_command s command_id)) !! command_id
    = Some pending ∧
  (∀ (s' : CommandService) (e : exn),
      let after := approve_resume command_id pending s' (inl e) in
      pending_commands after.1 = delete command_id (pending_commands s') ∧
      pending_commands after.1 !! command_id = None ∧
      emitted after.1 = emitted s' ++ [EvFailed command_id e] ∧
      after.2 = inl e ∧
      (∀ fut, Pending.handle pending = Some fut →
              (futures s' !! fut = Some FutPending →
               await_future after.1 fut = Some (inl e)) ∧
              (∀ f, futures s' !! fut = Some f → fut_done f = true →
                    futures after.1 = futures s' ∧
                    await_future after.1 fut = await_future s' fut))) ∧
  (∀ (s' : CommandService) (res : CommandResult),
      pending_commands (approve_resume command_id pending s' (inr res)).1
      = delete command_id (pending_commands s')) ∧
  (∀ platform os e fx,
      _run_now platform os s (Pending.command pending) (Pending.args pending) None
        = (inl e, fx) →
      run_alone platform os (approve_command s command_id)
        = Some (approve_resume command_id pending s (inl e), fx)).
Proof.
  intros Hp.
  assert (Ha : approve_command s command_id =
               AwaitRun s (Pending.command pending) (Pending.args pending) None
                        (approve_resume command_id pending)).
  { unfold approve_command. by rewrite Hp. }
  split; [exact Ha|]. split; [by rewrite Ha|]. split.
  - intros s' e after.
    destruct (approve_resume_failure command_id pending s' e) as (Hpc & Hem & Hr).
    subst after. split; [exact Hpc|]. split; [rewrite Hpc; apply lookup_delete_eq|].
    split; [exact Hem|]. split; [exact Hr|].
    intros fut Hh. cbn [approve_resume fst]. split.
    + intros Hf. by apply reject_wakes_waiter.
    + intros f Hf Hd.
      rewrite (reject_done_noop pending e
                 (emit (set_pending s' (delete command_id (pending_commands s')))
                       (EvFailed command_id e)) fut f Hh Hf Hd).
      done.
  - split.
    + intros s' res. by destruct (approve_resume_success command_id pending s' res).
    + intros platform os e fx Hrun. rewrite Ha. cbn [run_alone]. by rewrite Hrun.
Qed.

Lemma approve_failure_removes_after_run_witness :
  run_alone LINUX os_no_spawn (approve_command queued_service "id-1") =
    Some (approve_resume "id-1" (Pending.mk "id-1" "mkdir" ["testdir"] 0 None (Some 0%nat))
            queued_service (inl (OSError "[Errno 2] No such file or directory")), []).
Proof.
  refine (proj2 (proj2 (proj2 (proj2 (approve_failure_removes_after_run queued_service "id-1"
            (Pending.mk "id-1" "mkdir" ["testdir"] 0 None (Some 0%nat)) _))))
            LINUX os_no_spawn _ _ _).
  - vm_compute. reflexivity.
  - reflexivity.
Defined.

(** C2 as stated fails: when [approve_command] reaches the execution of the
    command the record has not been removed; it is still in the pending
    mapping, where a [deny_command] issued during the run finds it. When
    the execution then fails, the caller blocked on the record holds the
    denial, not the failure. *)
Lemma approve_record_present_during_run :
  ∃ pending k,
    pending_commands queued_service !! "id-1" = Some pending ∧
    approve_command queued_service "id-1" =
      AwaitRun queued_service "mkdir" ["testdir"] None k ∧
    pending_commands (coro_state (approve_command queued_service "id-1")) !! "id-1"
      ≠ None ∧
    (deny_command (coro_state (approve_command queued_service "id-1")) "id-1" None).2
      = inr tt ∧
    await_future
      (k (deny_command (coro_state (approve_command queued_service "id-1")) "id-1" None).1
         (inl (OSError "[Errno 2] No such file or directory"))).1 0
    = Some (inl (RuntimeError "Command denied")).
Proof.
  exists (Pending.mk "id-1" "mkdir" ["testdir"] 0 None (Some 0%nat)),
         (approve_resume "id-1" (Pending.mk "id-1" "mkdir" ["testdir"] 0 None (Some 0%nat))).
  split; [vm_compute; reflexivity|].
  split; [vm_compute; reflexivity|].
  split; [vm_compute; discriminate|].
  split; vm_compute; reflexivity.
Qed.

(** C7: [deny_command] on an id that is not pending raises NotFound and
    leaves the service as it was; on a pending id it removes the record,
    publishes a denied event with the id and the reason, and completes the
    record's handle with an error whose text is the reason, so that a waiter
    blocked on it is woken with that error and the records listed afterward
    are those kept under the other ids. The blocking queue makes such a
    waiter: denied, it fails with the reason. *)
Theorem deny_command_spec (s : CommandService) (command_id : string)
    (reason : option string) :
  (pending_commands s !! command_id = None →
     deny_command s command_id reason =
       (s, inl (RuntimeError ("No pending command with ID: " +:+ command_id)))) ∧
  (∀ pending, pending_commands s !! command_id = Some pending →
     let text := default "Command denied" reason in
     let after := deny_command s command_id reason in
     after.2 = inr tt ∧
     pending_commands after.1 = delete command_id (pending_commands s) ∧
     pending_commands after.1 !! command_id = None ∧
     (∀ p, p ∈ get_pending_commands after.1 ↔
           ∃ k, k ≠ command_id ∧ pending_commands s !! k = Some p) ∧
     emitted after.1 = emitted s ++ [EvDenied command_id text] ∧
     (∀ fut, Pending.handle pending = Some fut →
             futures s !! fut = Some FutPending →
             await_future after.1 fut = Some (inl (RuntimeError text)) ∧
             exn_str (RuntimeError text) = text)) ∧
  (∀ command args requested_by now,
     let queued := _queue_command_for_approval s command args requested_by command_id now in
     let fut := length (futures s) in
     queued = AwaitFuture (coro_state queued) fut ∧
     await_future (coro_state queued) fut = None ∧
     await_future (deny_command (coro_state queued) command_id reason).1 fut
       = Some (inl (RuntimeError (default "Command denied" reason)))).
Proof.
  split; [|split].
  - intros Hp. unfold deny_command. cbn zeta. by rewrite Hp.
  - intros pending Hp text after.
    assert (Hd : after =
              (reject pending (RuntimeError text)
                 (emit (set_pending s (delete command_id (pending_commands s)))
                       (EvDenied command_id text)), inr tt)).
    { subst after text. unfold deny_command. cbn zeta. by rewrite Hp. }
    rewrite Hd. cbn [fst snd].
    destruct (reject_frame pending (RuntimeError text)
                (emit (set_pending s (delete command_id (pending_commands s)))
                      (EvDenied command_id text))) as (Hpc & _ & Hem & _).
    split; [done|]. split; [exact Hpc|].
    split; [rewrite Hpc; apply lookup_delete_eq|].
    split; [|split; [exact Hem|]].
    + intros p. rewrite elem_of_get_pending_commands, Hpc. cbn.
      split.
      * intros [k Hk]. exists k. apply lookup_delete_Some in Hk as [Hne Hk]. done.
      * intros (k & Hne & Hk). exists k. apply lookup_delete_Some. done.
    + intros fut Hh Hf. split; [|done]. by apply reject_wakes_waiter.
  - intros command args requested_by now queued fut.
    set (pending := Pending.mk command_id command (default [] args) now requested_by
                               (Some fut)).
    assert (Hq : queued =
              AwaitFuture
                (set_timers
                   (emit (set_pending (set_futures s (futures s ++ [FutPending]))
                                      (<[command_id := pending]> (pending_commands s)))
                         (EvPending pending))
                   (timers s ++ [(approval_timer_ms, command_id)]))
                fut) by reflexivity.
    rewrite Hq. cbn [coro_state]. split; [done|].
    assert (Hfut : (futures s ++ [FutPending]) !! fut = Some FutPending).
    { subst fut. rewrite lookup_app_r by lia. by rewrite Nat.sub_diag. }
    split.
    + unfold await_future. cbn. by rewrite Hfut.
    + unfold deny_command. cbn zeta. cbn [pending_commands set_timers emit set_pending].
      rewrite lookup_insert_eq. cbn [fst].
      by apply reject_wakes_waiter.
Qed.

Lemma deny_command_spec_witness :
  await_future (deny_command queued_service "id-1" (Some "policy")).1 0%nat
    = Some (inl (RuntimeError "policy")) ∧
  exn_str (RuntimeError "policy") = "policy".
Proof.
  refine (proj2 (proj2 (proj2 (proj2 (proj2
            (proj1 (proj2 (deny_command_spec queued_service "id-1" (Some "policy")))
               (Pending.mk "id-1" "mkdir" ["testdir"] 0 None (Some 0%nat)) _)))))
            0%nat _ _).
  - vm_compute. reflexivity.
  - reflexivity.
  - vm_compute. reflexivity.
Defined.

(** C8: both queue functions register the callback with a delay of five
    seconds; when the loop runs it, an approval_timeout event for the id is
    published exactly when the id is still in the pending mapping; the
    callback changes neither the pending mapping nor the whitelist nor any
    future, so the records listed are the same, and a record that was
    pending can still be approved or denied. *)
Theorem advisory_timer_spec (s : CommandService) (cmd_id : string) :
  (∀ command args requested_by now,
     timers (queue_command_for_approval_non_blocking s command args requested_by
               cmd_id now).1
       = timers s ++ [(5000%Z, cmd_id)] ∧
     timers (coro_state (_queue_command_for_approval s command args requested_by
               cmd_id now))
       = timers s ++ [(5000%Z, cmd_id)]) ∧
  (∀ i delay, timers s !! i = Some (delay, cmd_id) →
     let after := fire_timer i s in
     pending_commands after = pending_commands s ∧
     whitelist after = whitelist s ∧
     futures after = futures s ∧
     get_pending_commands after = get_pending_commands s ∧
     (emitted after = emitted s ++ [EvApprovalTimeout cmd_id approval_timeout_message]
        ↔ is_Some (pending_commands s !! cmd_id)) ∧
     (pending_commands s !! cmd_id = None → emitted after = emitted s) ∧
     (∀ pending, pending_commands s !! cmd_id = Some pending →
        pending ∈ get_pending_commands after ∧
        approve_command after cmd_id =
          AwaitRun after (Pending.command pending) (Pending.args pending) None
                   (approve_resume cmd_id pending) ∧
        ∀ reason, (deny_command after cmd_id reason).2 = inr tt)).
Proof.
  split; [done|].
  intros i delay Hi after.
  assert (Hafter : after = _timeout_check cmd_id (set_timers s (delete i (timers s)))).
  { subst after. unfold fire_timer. by rewrite Hi. }
  assert (Hframe : pending_commands after = pending_commands s ∧
                   whitelist after = whitelist s ∧ futures after = futures s).
  { rewrite Hafter. unfold _timeout_check. cbn [pending_commands set_timers].
    by destruct (pending_commands s !! cmd_id). }
  destruct Hframe as (Hpc & Hwl & Hfu).
  split; [exact Hpc|]. split; [exact Hwl|]. split; [exact Hfu|].
  split; [unfold get_pending_commands; by rewrite Hpc|].
  split; [|split].
  - rewrite Hafter. unfold _timeout_check. cbn [pending_commands set_timers].
    destruct (pending_commands s !! cmd_id) as [p|]; cbn.
    + split; [eauto | done].
    + split; [|by intros [? ?]].
      intros Heq. apply (f_equal length) in Heq. rewrite length_app in Heq.
      cbn in Heq. lia.
  - intros Hn. rewrite Hafter. unfold _timeout_check. cbn [pending_commands set_timers].
    by rewrite Hn.
  - intros pending Hp. split; [|split].
    + apply elem_of_get_pending_commands. exists cmd_id. by rewrite Hpc.
    + unfold approve_command. by rewrite Hpc, Hp.
    + intros reason. unfold deny_command. cbn zeta. by rewrite Hpc, Hp.
Qed.

Lemma advisory_timer_spec_witness :
  let after := fire_timer 0 queued_service in
  pending_commands after = pending_commands queued_service ∧
  emitted after =
    emitted queued_service ++ [EvApprovalTimeout "id-1" approval_timeout_message].
Proof.
  destruct (proj2 (advisory_timer_spec queued_service "id-1") 0%nat 5000%Z)
    as (Hpc & _ & _ & _ & Hev & _).
  - vm_compute. reflexivity.
  - split; [exact Hpc|]. apply Hev. vm_compute. eauto.
Defined.

(** ** The registry over time *)

Section RegistryOverTime.

Lemma whitelist_initialize (platform : PlatformType) (s : CommandService) :
  whitelist (_initialize_default_whitelist platform s) =
  fold_left (fun w e => <[base_name (Entry.command e) := e]> w)
            (get_platform_specific_commands platform) (whitelist s).
Proof.
  unfold _initialize_default_whitelist.
  generalize (get_platform_specific_commands platform). intros l. revert s.
  induction l as [|e l IH]; intros s; cbn; [done|]. by rewrite IH.
Qed.

(** The commands of the defaults are bare names on every platform. *)
Lemma default_commands_bare (platform : PlatformType) :
  Forall (fun e => base_name (Entry.command e) = Entry.command e)
         (get_platform_specific_commands platform).
Proof. destruct platform; refine (bool_decide_unpack _ _); vm_compute; exact I. Qed.

Lemma fold_insert_keyed (l : list Entry.t) (w : gmap string Entry.t) :
  Forall (fun e => base_name (Entry.command e) = Entry.command e) l →
  (∀ k e, w !! k = Some e → Entry.command e = k) →
  ∀ k e, fold_left (fun w e => <[base_name (Entry.command e) := e]> w) l w !! k = Some e →
         Entry.command e = k.
Proof.
  revert w. induction l as [|x l IH]; intros w Hl Hw; cbn; [exact Hw|].
  inversion Hl as [|? ? Hx Hl']; subst. apply IH; [exact Hl'|].
  intros k e Hk. apply lookup_insert_Some in Hk as [[<- <-]|[_ Hk]]; [done | eauto].
Qed.

Lemma init_keyed (platform : PlatformType) (environ : string → option string)
    (shell_arg : option string) (timeout : Z) :
  keyed_by_command (init platform environ shell_arg timeout).
Proof.
  unfold keyed_by_command, init. rewrite whitelist_initialize. cbn [whitelist].
  apply fold_insert_keyed; [apply default_commands_bare|].
  intros k e Hk. by rewrite lookup_empty in Hk.
Qed.

Lemma apply_registry_op_keyed (s : CommandService) (o : registry_op) :
  keyed_by_command s → keyed_by_command (apply_registry_op s o).
Proof.
  intros Hs k e. destruct o as [entry|command|command level]; cbn.
  - intros Hk. apply lookup_insert_Some in Hk as [[<- <-]|[_ Hk]]; [done | eauto].
  - intros Hk. apply lookup_delete_Some in Hk as [_ Hk]. eauto.
  - unfold update_security_level.
    destruct (whitelist s !! command) as [entry|] eqn:E; [|apply Hs].
    cbn. intros Hk. apply lookup_insert_Some in Hk as [[<- <-]|[_ Hk]]; [|eauto].
    cbn. eauto.
Qed.

Lemma keyed_commands (s : CommandService) :
  keyed_by_command s →
  Entry.command <$> get_whitelist s = (map_to_list (whitelist s)).*1.
Proof.
  intros Hs. unfold get_whitelist. rewrite <- list_fmap_compose.
  apply list_fmap_ext. intros i [k e] Hi. cbn.
  apply Hs. apply elem_of_map_to_list. by eapply list_elem_of_lookup_2.
Qed.

End RegistryOverTime.

(** X1: whatever sequence of [add_to_whitelist], [remove_from_whitelist] and
    [update_security_level] calls follows the constructor, every entry of
    the whitelist is stored under its own [command] field, and
    [get_whitelist] lists no command twice. *)
Theorem registry_keyed_by_command (platform : PlatformType)
    (environ : string → option string) (shell_arg : option string) (timeout : Z)
    (ops : list registry_op) :
  let s := fold_left apply_registry_op ops (init platform environ shell_arg timeout) in
  keyed_by_command s ∧ NoDup (Entry.command <$> get_whitelist s).
Proof.
  cbn zeta.
  assert (Hk : keyed_by_command
                 (fold_left apply_registry_op ops (init platform environ shell_arg timeout))).
  { generalize (init_keyed platform environ shell_arg timeout).
    generalize (init platform environ shell_arg timeout).
    induction ops as [|o ops IH]; intros s Hs; cbn; [exact Hs|].
    apply IH. by apply apply_registry_op_keyed. }
  split; [exact Hk|].
  rewrite (keyed_commands _ Hk). apply NoDup_fst_map_to_list.
Qed.

(** X2: on every platform each default entry is found, as it was written,
    under its own command name: no default overwrites another. *)
Theorem defaults_stored_under_their_names (platform : PlatformType)
    (environ : string → option string) (shell_arg : option string) (timeout : Z)
    (e : Entry.t) :
  e ∈ get_platform_specific_commands platform →
  whitelist (init platform environ shell_arg timeout) !! Entry.command e = Some e ∧
  size (whitelist (init platform environ shell_arg timeout))
    = length (get_platform_specific_commands platform).
Proof.
  intros He. unfold init. rewrite whitelist_initialize. cbn [whitelist].
  split.
  - revert e He. apply Forall_forall.
    destruct platform; refine (bool_decide_unpack _ _); vm_compute; exact I.
  - destruct platform; vm_compute; reflexivity.
Qed.

Lemma defaults_stored_under_their_names_witness :
  whitelist (init WINDOWS (fun _ => None) None 30000) !! "del"
    = Some (entry_pos "del" FORBIDDEN "Delete files").
Proof.
  refine (proj1 (defaults_stored_under_their_names WINDOWS (fun _ => None) None 30000
                   (entry_pos "del" FORBIDDEN "Delete files") _)).
  vm_compute. set_solver.
Defined.

Section DefaultsAndUpdates.

Lemma init_lookup_default (platform : PlatformType) (environ : string → option string)
    (shell_arg : option string) (timeout : Z) (e : Entry.t) :
  e ∈ get_platform_specific_commands platform →
  whitelist (init platform environ shell_arg timeout) !! base_name (Entry.command e) = Some e.
Proof.
  intros He.
  rewrite (proj1 (Forall_forall _ _) (default_commands_bare platform) e He).
  unfold init. rewrite whitelist_initialize. cbn [whitelist].
  revert e He. apply Forall_forall.
  destruct platform; refine (bool_decide_unpack _ _); vm_compute; exact I.
Qed.

Lemma chars_length (x s : string) : x ∈ PyStr.chars s → String.length x = 1%nat.
Proof.
  induction s as [|c s IH]; cbn; [by intros ?%elem_of_nil|].
  intros [->|H]%elem_of_cons; [done | auto].
Qed.

(** Apart from [echo], each default carries its descriptive text in
    [allowed_args], as a non-empty sequence of characters. *)
Lemma default_patterns (platform : PlatformType) :
  Forall (fun e => Entry.command e = "echo" ∨
                   ∃ text, text ≠ EmptyString ∧
                           Entry.allowed_args e = Some (PyStr.chars text) ∧
                           Entry.description e = None)
         (get_platform_specific_commands platform).
Proof.
  destruct platform; cbv [get_platform_specific_commands app
    get_common_safe_commands get_windows_safe_commands get_macos_safe_commands
    get_linux_safe_commands get_windows_approval_commands get_macos_approval_commands
    get_linux_approval_commands get_windows_forbidden_commands
    get_macos_forbidden_commands get_linux_forbidden_commands];
  repeat (apply List.Forall_cons;
          [first [left; reflexivity
                 | right; eexists; split; [|split; reflexivity]; discriminate]|]);
  apply List.Forall_nil.
Qed.

Lemma registry_op_pending (s : CommandService) (o : registry_op) :
  pending_commands (apply_registry_op s o) = pending_commands s ∧
  futures (apply_registry_op s o) = futures s ∧
  emitted (apply_registry_op s o) = emitted s.
Proof.
  destruct o as [entry|command|command level]; cbn; [done | done |].
  unfold update_security_level. by destruct (whitelist s !! command).
Qed.

End DefaultsAndUpdates.

(** X3: on a freshly constructed service, on every platform, a default
    command other than [echo] that is not forbidden is classified at its own
    level when called without arguments, and REQUIRES_APPROVAL as soon as
    one of its arguments is not a single character: the defaults' texts are
    their argument patterns, one character per position. *)
Theorem default_patterns_escalate (platform : PlatformType)
    (environ : string → option string) (shell_arg : option string) (timeout : Z)
    (e : Entry.t) (args : list string) (a : string) :
  e ∈ get_platform_specific_commands platform →
  Entry.command e ≠ "echo" →
  Entry.security_level e ≠ FORBIDDEN →
  a ∈ args →
  String.length a ≠ 1%nat →
  _validate_command (init platform environ shell_arg timeout) (Entry.command e) []
    = Some (Entry.security_level e) ∧
  _validate_command (init platform environ shell_arg timeout) (Entry.command e) args
    = Some REQUIRES_APPROVAL.
Proof.
  intros He Hecho Hf Ha Hlen.
  pose proof (init_lookup_default platform environ shell_arg timeout e He) as Hw.
  destruct (proj1 (Forall_forall _ _) (default_patterns platform) e He)
    as [?|(text & Hne & Hallowed & _)]; [done|].
  assert (Hnil : PyStr.chars text ≠ []) by (by destruct text).
  split.
  - by rewrite (validate_patterned _ _ [] e _ Hw Hf Hallowed Hnil).
  - rewrite (validate_patterned _ _ args e _ Hw Hf Hallowed Hnil).
    destruct (validate_loop_cases (PyStr.chars text) 0 args) as [Hn | ->]; [|done].
    exfalso. rewrite validate_loop_None in Hn.
    apply list_elem_of_lookup in Ha as [i Hi].
    specialize (Hn i a Hi). cbn in Hn.
    apply Hlen, (chars_length a text). by eapply list_elem_of_lookup_2.
Qed.

Lemma default_patterns_escalate_witness :
  _validate_command linux_service "ls" [] = Some SAFE ∧
  _validate_command linux_service "ls" ["-la"] = Some REQUIRES_APPROVAL.
Proof.
  apply (default_patterns_escalate LINUX (fun _ => None) None 30000
           (entry_pos "ls" SAFE "List directory contents") ["-la"] "-la").
  - vm_compute. set_solver.
  - discriminate.
  - discriminate.
  - set_solver.
  - discriminate.
Defined.

(** X4: [remove_from_whitelist] deletes the entry stored under the name it
    is given and nothing else; on a name that has no entry it changes
    nothing; the pending mapping is untouched; and a bare command name that
    was removed is refused as not whitelisted whatever its arguments. *)
Theorem remove_from_whitelist_spec (s : CommandService) (command : string) :
  whitelist (remove_from_whitelist s command) !! command = None ∧
  (∀ k, k ≠ command →
        whitelist (remove_from_whitelist s command) !! k = whitelist s !! k) ∧
  pending_commands (remove_from_whitelist s command) = pending_commands s ∧
  (whitelist s !! command = None → remove_from_whitelist s command = s) ∧
  (base_name command = command →
   ∀ args timeout requested_by cmd_id now,
     execute_command (remove_from_whitelist s command) command args timeout
                     requested_by cmd_id now =
       Return (remove_from_whitelist s command)
              (inl (RuntimeError ("Command not whitelisted: " +:+ command)))).
Proof.
  split; [apply lookup_delete_eq|].
  split; [intros k Hk; by apply lookup_delete_ne|].
  split; [done|]. split.
  - intros Hn. unfold remove_from_whitelist. rewrite (delete_id _ _ Hn). by destruct s.
  - intros Hb args timeout requested_by cmd_id now.
    unfold execute_command. cbn zeta. rewrite validate_absent; [done|].
    rewrite Hb. apply lookup_delete_eq.
Qed.

Lemma remove_from_whitelist_spec_witness :
  execute_command (remove_from_whitelist linux_service "echo") "echo" (Some ["hi"])
                  None None "id-1" 0 =
    Return (remove_from_whitelist linux_service "echo")
           (inl (RuntimeError "Command not whitelisted: echo")).
Proof.
  refine (proj2 (proj2 (proj2 (proj2 (remove_from_whitelist_spec linux_service "echo"))))
            _ (Some ["hi"]) None None "id-1" 0%Z).
  reflexivity.
Defined.

(** X5: [update_security_level] on a name that has no entry changes nothing;
    on a name that has one it replaces the level and keeps the command, the
    patterns and the description, leaving every other entry alone; a bare
    command updated to FORBIDDEN is then refused whatever its arguments. *)
Theorem update_security_level_spec (s : CommandService) (command : string)
    (level : CommandSecurityLevel) :
  (whitelist s !! command = None → update_security_level s command level = s) ∧
  (∀ entry, whitelist s !! command = Some entry →
     whitelist (update_security_level s command level) !! command =
       Some (Entry.mk (Entry.command entry) level (Entry.allowed_args entry)
                      (Entry.description entry)) ∧
     (∀ k, k ≠ command →
           whitelist (update_security_level s command level) !! k = whitelist s !! k) ∧
     pending_commands (update_security_level s command level) = pending_commands s ∧
     (base_name command = command → level = FORBIDDEN →
      ∀ args timeout requested_by cmd_id now,
        execute_command (update_security_level s command level) command args timeout
                        requested_by cmd_id now =
          Return (update_security_level s command level)
                 (inl (RuntimeError ("Command is forbidden: " +:+ command))))).
Proof.
  split.
  - intros Hn. unfold update_security_level. by rewrite Hn.
  - intros entry He.
    assert (Hu : update_security_level s command level =
                 set_whitelist s (<[command := Entry.with_level entry level]> (whitelist s))).
    { unfold update_security_level. by rewrite He. }
    rewrite Hu. cbn [whitelist set_whitelist pending_commands].
    split; [apply lookup_insert_eq|].
    split; [intros k Hk; by apply lookup_insert_ne|].
    split; [done|].
    intros Hb -> args timeout requested_by cmd_id now.
    unfold execute_command. cbn zeta.
    rewrite (validate_forbidden _ _ _ (Entry.with_level entry FORBIDDEN)); [done| |done].
    rewrite Hb. apply lookup_insert_eq.
Qed.

Lemma update_security_level_spec_witness :
  execute_command (update_security_level linux_service "echo" FORBIDDEN) "echo"
                  (Some ["hi"]) None None "id-1" 0 =
    Return (update_security_level linux_service "echo" FORBIDDEN)
           (inl (RuntimeError "Command is forbidden: echo")).
Proof.
  refine (proj2 (proj2 (proj2 (proj2 (update_security_level_spec linux_service "echo"
            FORBIDDEN) (entry_kw "echo" SAFE "Print text to standard output") _)))
            _ _ (Some ["hi"]) None None "id-1" 0%Z).
  - vm_compute. reflexivity.
  - reflexivity.
  - reflexivity.
Defined.

(** X6: [approve_command] does not look at the whitelist: a command that is
    pending is run on approval, with the command and arguments it was queued
    with, whatever has been added to, removed from or changed in the
    whitelist since. *)
Theorem approve_ignores_whitelist_changes (s : CommandService) (ops : list registry_op)
    (command_id : string) (pending : Pending.t) :
  pending_commands s !! command_id = Some pending →
  approve_command (fold_left apply_registry_op ops s) command_id =
    AwaitRun (fold_left apply_registry_op ops s)
             (Pending.command pending) (Pending.args pending) None
             (approve_resume command_id pending).
Proof.
  revert s. induction ops as [|o ops IH]; intros s Hp; cbn [fold_left].
  - unfold approve_command. by rewrite Hp.
  - apply IH. by rewrite (proj1 (registry_op_pending s o)).
Qed.

Lemma approve_ignores_whitelist_changes_witness :
  approve_command
    (fold_left apply_registry_op [RegUpdate "mkdir" FORBIDDEN; RegRemove "mkdir"]
               queued_service) "id-1" =
    AwaitRun
      (fold_left apply_registry_op [RegUpdate "mkdir" FORBIDDEN; RegRemove "mkdir"]
                 queued_service)
      "mkdir" ["testdir"] None
      (approve_resume "id-1" (Pending.mk "id-1" "mkdir" ["testdir"] 0 None (Some 0%nat))).
Proof.
  apply (approve_ignores_whitelist_changes queued_service
           [RegUpdate "mkdir" FORBIDDEN; RegRemove "mkdir"] "id-1"
           (Pending.mk "id-1" "mkdir" ["testdir"] 0 None (Some 0%nat))).
  vm_compute. reflexivity.
Defined.

(** ** The service over time *)

Section OverTime.

Lemma queue_blocking_queued (s : CommandService) (command : string)
    (args : option (list string)) (requested_by : option string) (cmd_id : string)
    (now : Z) :
  queued s (coro_state (_queue_command_for_approval s command args requested_by cmd_id now))
         cmd_id
         (Pending.mk cmd_id command (default [] args) now requested_by
                     (Some (length (futures s)))).
Proof. unfold queued. cbn. repeat split; eauto. Qed.

Lemma queue_non_blocking_queued (s : CommandService) (command : string)
    (args : option (list string)) (requested_by : option string) (cmd_id : string)
    (now : Z) :
  queued s (queue_command_for_approval_non_blocking s command args requested_by
                                                    cmd_id now).1
         cmd_id (Pending.mk cmd_id command (default [] args) now requested_by None).
Proof. unfold queued. cbn. repeat split; eauto. Qed.

(** [execute_command] either leaves the service as it is or queues. *)
Lemma execute_effect (s : CommandService) (command : string)
    (args : option (list string)) (timeout : option Z) (requested_by : option string)
    (cmd_id : string) (now : Z) :
  (_validate_command s command (default [] args) ≠ Some REQUIRES_APPROVAL ∧
   coro_state (execute_command s command args timeout requested_by cmd_id now) = s) ∨
  (_validate_command s command (default [] args) = Some REQUIRES_APPROVAL ∧
   queued s (coro_state (execute_command s command args timeout requested_by cmd_id now))
          cmd_id
          (Pending.mk cmd_id command (default [] args) now requested_by
                      (Some (length (futures s))))).
Proof.
  unfold execute_command. cbn zeta.
  destruct (_validate_command s command (default [] args)) as [[| |]|] eqn:E;
    [left | right | left | left]; try (split; [discriminate | reflexivity]).
  split; [reflexivity|]. apply (queue_blocking_queued s command (Some (default [] args))).
Qed.

Lemma complete_futures (l : list future) (fut : nat) (v : future) :
  fut_done v = true →
  let l' := match l !! fut with
            | Some f => if fut_done f then l else <[fut := v]> l
            | None => l
            end in
  length l' = length l ∧
  (∀ i, fut ≠ i → l' !! i = l !! i) ∧
  ((fut < length l)%nat → ∃ f, l' !! fut = Some f ∧ fut_done f = true) ∧
  (∀ i f, l !! i = Some f → fut_done f = true → l' !! i = Some f).
Proof.
  intros Hv. cbn zeta. destruct (l !! fut) as [f|] eqn:E.
  - destruct (fut_done f) eqn:D.
    + repeat split; eauto.
    + split; [apply length_insert|].
      split; [intros i Hi; by apply list_lookup_insert_ne|].
      split.
      * intros Hlt. exists v. split; [by apply list_lookup_insert_eq | done].
      * intros i g Hi Hg. destruct (decide (fut = i)) as [<-|Hne].
        -- congruence.
        -- by rewrite list_lookup_insert_ne.
  - repeat split; eauto. intros Hlt. apply lookup_ge_None in E. lia.
Qed.

Lemma reject_futures (p : Pending.t) (err : exn) (s : CommandService) :
  length (futures (reject p err s)) = length (futures s) ∧
  (∀ i, Pending.handle p ≠ Some i → futures (reject p err s) !! i = futures s !! i) ∧
  (∀ i, Pending.handle p = Some i → (i < length (futures s))%nat →
        ∃ f, futures (reject p err s) !! i = Some f ∧ fut_done f = true) ∧
  (∀ i f, futures s !! i = Some f → fut_done f = true →
          futures (reject p err s) !! i = Some f).
Proof.
  unfold reject. destruct (Pending.handle p) as [fut|]; [|by repeat split].
  destruct (complete_futures (futures s) fut (FutException err) eq_refl)
    as (Hl & Ho & Hd & Hk).
  assert (Heq : futures (match futures s !! fut with
                         | Some f => if fut_done f then s
                                     else set_futures s (<[fut:=FutException err]> (futures s))
                         | None => s
                         end) =
                match futures s !! fut with
                | Some f => if fut_done f then futures s
                            else <[fut:=FutException err]> (futures s)
                | None => futures s
                end).
  { destruct (futures s !! fut) as [f|]; [|done]. by destruct (fut_done f). }
  rewrite Heq. split; [exact Hl|]. split; [|split; [|exact Hk]].
  - intros i Hi. apply Ho. congruence.
  - intros i [= <-]. exact Hd.
Qed.

Lemma resolve_futures (p : Pending.t) (res : CommandResult) (s : CommandService) :
  length (futures (resolve p res s)) = length (futures s) ∧
  (∀ i, Pending.handle p ≠ Some i → futures (resolve p res s) !! i = futures s !! i) ∧
  (∀ i, Pending.handle p = Some i → (i < length (futures s))%nat →
        ∃ f, futures (resolve p res s) !! i = Some f ∧ fut_done f = true) ∧
  (∀ i f, futures s !! i = Some f → fut_done f = true →
          futures (resolve p res s) !! i = Some f).
Proof.
  unfold resolve. destruct (Pending.handle p) as [fut|]; [|by repeat split].
  destruct (complete_futures (futures s) fut (FutResult res) eq_refl)
    as (Hl & Ho & Hd & Hk).
  assert (Heq : futures (match futures s !! fut with
                         | Some f => if fut_done f then s
                                     else set_futures s (<[fut:=FutResult res]> (futures s))
                         | None => s
                         end) =
                match futures s !! fut with
                | Some f => if fut_done f then futures s
                            else <[fut:=FutResult res]> (futures s)
                | None => futures s
                end).
  { destruct (futures s !! fut) as [f|]; [|done]. by destruct (fut_done f). }
  rewrite Heq. split; [exact Hl|]. split; [|split; [|exact Hk]].
  - intros i Hi. apply Ho. congruence.
  - intros i [= <-]. exact Hd.
Qed.

Lemma approve_resume_settled (k : string) (p : Pending.t) (s : CommandService)
    (r : exn + CommandResult) :
  settled s (approve_resume k p s r).1 k p.
Proof.
  unfold settled. destruct r as [e|res].
  - destruct (approve_resume_failure k p s e) as (Hpc & Hem & _).
    split; [exact Hpc|]. split; [by eexists|].
    cbn [approve_resume fst].
    apply (reject_futures p e
             (emit (set_pending s (delete k (pending_commands s))) (EvFailed k e))).
  - destruct (approve_resume_success k p s res) as (Hpc & Hem & _).
    split; [exact Hpc|]. split; [by eexists|].
    cbn [approve_resume fst].
    apply (resolve_futures p res
             (emit (set_pending s (delete k (pending_commands s)))
                   (EvApproved k (stdout res) (stderr res)))).
Qed.

Lemma deny_effect (s : CommandService) (k : string) (reason : option string) :
  (pending_commands s !! k = None ∧ (deny_command s k reason).1 = s) ∨
  (∃ p, pending_commands s !! k = Some p ∧ settled s (deny_command s k reason).1 k p).
Proof.
  unfold deny_command. cbn zeta. destruct (pending_commands s !! k) as [p|] eqn:E.
  - right. exists p. split; [done|]. cbn [fst]. unfold settled.
    set (s1 := emit (set_pending s (delete k (pending_commands s)))
                    (EvDenied k (default "Command denied" reason))).
    destruct (reject_frame p (RuntimeError (default "Command denied" reason)) s1)
      as (Hpc & _ & Hem & _).
    split; [by rewrite Hpc|]. split; [rewrite Hem; by eexists|].
    apply (reject_futures p _ s1).
  - left. done.
Qed.

Lemma fire_timer_frame (i : nat) (s : CommandService) :
  pending_commands (fire_timer i s) = pending_commands s ∧
  futures (fire_timer i s) = futures s ∧
  whitelist (fire_timer i s) = whitelist s ∧
  (emitted (fire_timer i s) = emitted s ∨
   ∃ k, emitted (fire_timer i s) = emitted s ++ [EvApprovalTimeout k approval_timeout_message]).
Proof.
  unfold fire_timer. destruct (timers s !! i) as [[d k]|]; [|by repeat split; eauto].
  unfold _timeout_check. cbn [pending_commands set_timers].
  destruct (pending_commands s !! k); cbn; repeat split; eauto.
Qed.

End OverTime.

Section Consistency.

Lemma snoc_split {A} (l pre post : list A) (x e : A) :
  l ++ [x] = pre ++ e :: post →
  (post = [] ∧ l = pre ∧ x = e) ∨ (∃ post', post = post' ++ [x] ∧ l = pre ++ e :: post').
Proof.
  induction post as [|y post' _] using rev_ind; intros H.
  - left. apply app_inj_tail in H as [-> ->]. done.
  - right. exists post'. change (pre ++ e :: post' ++ [y]) with (pre ++ (e :: post') ++ [y]) in H.
    rewrite app_assoc in H. apply app_inj_tail in H as [-> ->]. done.
Qed.

Lemma terminal_extend (em : list event) (x : event) :
  (∀ pre e post k, em = pre ++ e :: post → terminal_id e = Some k →
                   ∃ p, Pending.id p = k ∧ EvPending p ∈ pre) →
  (∀ k, terminal_id x = Some k → ∃ p, Pending.id p = k ∧ EvPending p ∈ em) →
  ∀ pre e post k, em ++ [x] = pre ++ e :: post → terminal_id e = Some k →
                  ∃ p, Pending.id p = k ∧ EvPending p ∈ pre.
Proof.
  intros Hold Hx pre e post k Hsplit Hk.
  apply snoc_split in Hsplit as [(_ & -> & ->)|(post' & _ & ->)].
  - by apply Hx.
  - by eapply Hold.
Qed.

Lemma consistent_initial (platform : PlatformType) (environ : string → option string)
    (shell_arg : option string) (timeout : Z) :
  consistent (initial platform environ shell_arg timeout).
Proof.
  assert (Hs : pending_commands (init platform environ shell_arg timeout) = ∅ ∧
               emitted (init platform environ shell_arg timeout) = []).
  { unfold init, _initialize_default_whitelist.
    generalize (get_platform_specific_commands platform). intros l.
    match goal with |- context [fold_left ?f l ?s0] =>
      assert (H : ∀ s, pending_commands (fold_left f l s) = pending_commands s ∧
                       emitted (fold_left f l s) = emitted s)
    end.
    { induction l as [|e l IH]; intros s; cbn; [done|]. by rewrite !(proj1 (IH _)), !(proj2 (IH _)). }
    apply H. }
  destruct Hs as [Hp He].
  split; cbn [svc issued running initial]; try (intros *; rewrite ?Hp, ?lookup_empty; done).
  - intros k p []%elem_of_nil.
  - intros pre e post k Hsplit. rewrite He in Hsplit. by destruct pre.
Qed.

(** A change that touches neither the pending mapping nor the futures, and
    publishes at most an event that is not about a decision. *)
Lemma consistent_frame (w : world) (s' : CommandService)
    (run' : list (string * Pending.t)) :
  consistent w →
  pending_commands s' = pending_commands (svc w) →
  futures s' = futures (svc w) →
  (emitted s' = emitted (svc w) ∨
   ∃ x, emitted s' = emitted (svc w) ++ [x] ∧ terminal_id x = None) →
  (∀ k p, (k, p) ∈ run' → issued w !! k = Some p) →
  consistent (mkWorld s' (issued w) run').
Proof.
  intros [H1 H2 H3 H4 H5 H6 H7 H8 H9] Hp Hf He Hr.
  split; cbn [svc issued running]; rewrite ?Hp, ?Hf; eauto.
  - intros k p Hk. destruct He as [->|(x & -> & _)]; [eauto|].
    apply elem_of_app. left. eauto.
  - destruct He as [->|(x & -> & Hx)]; [exact H9|].
    apply terminal_extend; [exact H9|]. intros k Hk. congruence.
Qed.

Lemma consistent_queued (w : world) (s' : CommandService) (k : string) (p : Pending.t) :
  consistent w →
  issued w !! k = None →
  queued (svc w) s' k p →
  consistent (mkWorld s' (record_issue k s' (issued w)) (running w)).
Proof.
  intros [H1 H2 H3 H4 H5 H6 H7 H8 H9] Hfresh (Hp & He & Hid & Hfut).
  assert (Hbook : record_issue k s' (issued w) = <[k := p]> (issued w)).
  { unfold record_issue. by rewrite Hp, lookup_insert_eq. }
  assert (Hlen : (length (futures (svc w)) ≤ length (futures s'))%nat).
  { destruct Hfut as [[_ ->]|[_ ->]]; [done|]. rewrite length_app. lia. }
  assert (Hold : ∀ i f, futures (svc w) !! i = Some f → futures s' !! i = Some f).
  { intros i f Hi. destruct Hfut as [[_ ->]|[_ ->]]; [done|]. by apply lookup_app_l_Some. }
  assert (Hnew : ∀ fut, Pending.handle p = Some fut →
                        fut = length (futures (svc w)) ∧
                        futures s' !! fut = Some FutPending).
  { intros fut Hh. destruct Hfut as [[Hn _]|[Hs ->]]; [congruence|].
    assert (fut = length (futures (svc w))) as -> by congruence.
    split; [done|]. rewrite lookup_app_r by lia. by rewrite Nat.sub_diag. }
  split; cbn [svc issued running]; rewrite ?Hbook, ?Hp.
  - intros k' p' Hk. apply lookup_insert_Some in Hk as [[<- <-]|[Hne Hk]].
    + apply lookup_insert_eq.
    + rewrite lookup_insert_ne by done. eauto.
  - intros k' p' Hk. apply lookup_insert_Some in Hk as [[<- <-]|[Hne Hk]]; eauto.
  - intros k' p' fut Hk Hh. apply lookup_insert_Some in Hk as [[<- <-]|[Hne Hk]].
    + destruct (Hnew fut Hh) as [_ Hl]. by apply lookup_lt_Some in Hl.
    + specialize (H3 _ _ _ Hk Hh). lia.
  - intros k1 k2 p1 p2 fut Hk1 Hk2 Hh1 Hh2.
    apply lookup_insert_Some in Hk1 as [[<- <-]|[Hne1 Hk1]];
      apply lookup_insert_Some in Hk2 as [[<- <-]|[Hne2 Hk2]]; [done| | |eauto].
    + destruct (Hnew fut Hh1) as [-> _]. specialize (H3 _ _ _ Hk2 Hh2). lia.
    + destruct (Hnew fut Hh2) as [-> _]. specialize (H3 _ _ _ Hk1 Hh1). lia.
  - intros k' p' fut Hk Hh. apply lookup_insert_Some in Hk as [[<- <-]|[Hne Hk]].
    + by destruct (Hnew fut Hh).
    + eauto.
  - intros k' p' fut Hk Hn Hh.
    apply lookup_insert_None in Hn as [Hn Hne].
    rewrite lookup_insert_ne in Hk by done.
    destruct (H6 _ _ _ Hk Hn Hh) as (f & Hf & Hd). eauto.
  - intros k' p' Hr. specialize (H7 _ _ Hr).
    rewrite lookup_insert_ne; [done|]. congruence.
  - intros k' p' Hk. rewrite He. apply elem_of_app.
    apply lookup_insert_Some in Hk as [[<- <-]|[Hne Hk]]; [right; constructor | left; eauto].
  - rewrite He. apply terminal_extend; [exact H9|]. intros k' Hk'. done.
Qed.

Lemma consistent_settled (w : world) (s' : CommandService) (k : string) (p : Pending.t) :
  consistent w →
  issued w !! k = Some p →
  settled (svc w) s' k p →
  consistent (mkWorld s' (issued w) (running w)).
Proof.
  intros [H1 H2 H3 H4 H5 H6 H7 H8 H9] Hk (Hp & (e & He & Hte) & Hlen & Hother & Hdone & Hkeep).
  split; cbn [svc issued running]; rewrite ?Hp, ?Hlen; eauto.
  - intros k' p' Hk'. apply lookup_delete_Some in Hk' as [_ Hk']. eauto.
  - intros k' p' fut Hk' Hh. apply lookup_delete_Some in Hk' as [Hne Hk'].
    rewrite Hother; [eauto|].
    intros Hh'. apply Hne. eapply (H4 k k' p p' fut); eauto.
  - intros k' p' fut Hk' Hn Hh. destruct (decide (k = k')) as [<-|Hne].
    + assert (p' = p) as -> by congruence. eauto.
    + rewrite lookup_delete_ne in Hn by done.
      destruct (H6 _ _ _ Hk' Hn Hh) as (f & Hf & Hd). eauto.
  - intros k' p' Hk'. rewrite He. apply elem_of_app. left. eauto.
  - rewrite He. apply terminal_extend; [exact H9|].
    intros k' Hk'. assert (k' = k) as -> by congruence. eauto.
Qed.

Lemma approve_command_state (s : CommandService) (k : string) :
  coro_state (approve_command s k) = s.
Proof. unfold approve_command. by destruct (pending_commands s !! k). Qed.

Lemma step_consistent (w w' : world) : consistent w → step w w' → consistent w'.
Proof.
  intros Hw Hstep. destruct Hstep.
  - destruct (registry_op_pending (svc w) o) as (Hp & Hf & He).
    apply consistent_frame; eauto. exact (running_issued w Hw).
  - destruct (execute_effect (svc w) command args timeout requested_by cmd_id now)
      as [[_ Hs]|[_ Hq]].
    + rewrite Hs. unfold record_issue.
      destruct (pending_commands (svc w) !! cmd_id) as [p|] eqn:E.
      { apply (pending_issued w Hw) in E. congruence. }
      by destruct w.
    + by eapply consistent_queued.
  - eapply consistent_queued; [done | done |]. apply queue_non_blocking_queued.
  - rewrite approve_command_state. apply consistent_frame; eauto.
    intros k p Hin. apply elem_of_cons in Hin as [Heq|Hin].
    + inversion Heq; subst. by apply (pending_issued w Hw).
    + by apply (running_issued w Hw).
  - eapply consistent_settled; [done | by apply (running_issued w Hw) |].
    apply approve_resume_settled.
  - destruct (deny_effect (svc w) command_id reason) as [[_ ->]|(p & Hp & Hs)].
    + by destruct w.
    + eapply consistent_settled; [done | by apply (pending_issued w Hw) | done].
  - destruct (fire_timer_frame i (svc w)) as (Hp & Hf & _ & He).
    apply consistent_frame; eauto; [|exact (running_issued w Hw)].
    destruct He as [He|[k He]]; [by left|]. right. eauto.
Qed.

Lemma reachable_consistent (w : world) : reachable w → consistent w.
Proof.
  intros (platform & environ & shell_arg & timeout & Hr).
  revert w Hr. apply rtc_ind_r; [apply consistent_initial|].
  intros y z _ Hstep Hy. by eapply step_consistent.
Qed.

End Consistency.

Section OverTimeFacts.

Lemma queued_world_reachable : reachable queued_world.
Proof.
  exists LINUX, (fun _ => None), None, 30000%Z. apply rtc_once.
  exact (step_execute linux_world "mkdir" (Some ["testdir"]) None None "id-1" 0 eq_refl).
Qed.

Lemma denied_world_reachable : reachable denied_world.
Proof.
  destruct queued_world_reachable as (platform & environ & shell_arg & timeout & Hr).
  exists platform, environ, shell_arg, timeout.
  eapply rtc_r; [exact Hr|].
  exact (step_deny queued_world "id-1" (Some "policy")).
Qed.

(** A step keeps what was issued, and does not bring back an id that has
    left the pending mapping. *)
Lemma step_removed (w w' : world) (k : string) (p : Pending.t) :
  step w w' →
  issued w !! k = Some p →
  pending_commands (svc w) !! k = None →
  issued w' !! k = Some p ∧ pending_commands (svc w') !! k = None.
Proof.
  intros Hstep Hk Hn. destruct Hstep; cbn [svc issued].
  - by rewrite (proj1 (registry_op_pending (svc w) o)).
  - assert (Hne : cmd_id ≠ k) by congruence.
    destruct (execute_effect (svc w) command args timeout requested_by cmd_id now)
      as [[_ Hs]|[_ (Hp & _)]].
    + rewrite Hs. unfold record_issue.
      destruct (pending_commands (svc w) !! cmd_id); [|done].
      by rewrite lookup_insert_ne.
    + unfold record_issue. rewrite Hp, lookup_insert_eq, !lookup_insert_ne by done. done.
  - assert (Hne : cmd_id ≠ k) by congruence.
    unfold record_issue. cbn. rewrite lookup_insert_eq, !lookup_insert_ne by done. done.
  - by rewrite approve_command_state.
  - destruct (approve_resume_settled command_id pending (svc w) r) as (-> & _).
    split; [done|]. apply lookup_delete_None. by right.
  - destruct (deny_effect (svc w) command_id reason) as [[_ ->]|(q & _ & -> & _)]; [done|].
    split; [done|]. apply lookup_delete_None. by right.
  - by rewrite (proj1 (fire_timer_frame i (svc w))).
Qed.

(** A step leaves a completed future as it is. *)
Lemma step_done_future (w w' : world) (fut : nat) (f : future) :
  step w w' →
  futures (svc w) !! fut = Some f → fut_done f = true →
  futures (svc w') !! fut = Some f.
Proof.
  intros Hstep Hf Hd. destruct Hstep; cbn [svc].
  - by rewrite (proj1 (proj2 (registry_op_pending (svc w) o))).
  - destruct (execute_effect (svc w) command args timeout requested_by cmd_id now)
      as [[_ ->]|[_ (_ & _ & _ & Hfut)]]; [done|].
    destruct Hfut as [[_ ->]|[_ ->]]; [done | by apply lookup_app_l_Some].
  - done.
  - by rewrite approve_command_state.
  - destruct (approve_resume_settled command_id pending (svc w) r)
      as (_ & _ & _ & _ & _ & Hkeep). eauto.
  - destruct (deny_effect (svc w) command_id reason)
      as [[_ ->]|(q & _ & _ & _ & _ & _ & _ & Hkeep)]; eauto.
  - by rewrite (proj1 (proj2 (fire_timer_frame i (svc w)))).
Qed.

Lemma on_event_terminal (d : dispatch) (e : event) (k : string) :
  terminal_id e = Some k →
  pending_approvals (on_event d e) = delete k (pending_approvals d).
Proof.
  destruct e; cbn; try done; intros [= ->]; try done.
  destruct (pending_approvals d !! k) eqn:E; cbn; [done|]. by rewrite delete_id.
Qed.

Lemma dispatch_after_snoc (events : list event) (e : event) :
  dispatch_after (events ++ [e]) = on_event (dispatch_after events) e.
Proof. unfold dispatch_after. by rewrite fold_left_app. Qed.

Lemma step_mirrored (w w' : world) : step w w' → mirrored (svc w) → mirrored (svc w').
Proof.
  assert (Hq : ∀ s s' k p, queued s s' k p → mirrored s → mirrored s').
  { intros s s' k p (Hp & He & Hid & _) Hm. unfold mirrored in *.
    rewrite He, Hp, dispatch_after_snoc, fmap_insert. cbn. by rewrite Hm, Hid. }
  assert (Hs : ∀ s s' k p, settled s s' k p → mirrored s → mirrored s').
  { intros s s' k p (Hp & (e & He & Hte) & _) Hm. unfold mirrored in *.
    rewrite He, Hp, dispatch_after_snoc, (on_event_terminal _ _ _ Hte), fmap_delete.
    by rewrite Hm. }
  intros Hstep Hm. destruct Hstep; cbn [svc].
  - destruct (registry_op_pending (svc w) o) as (Hp & _ & He).
    unfold mirrored. by rewrite Hp, He.
  - destruct (execute_effect (svc w) command args timeout requested_by cmd_id now)
      as [[_ ->]|[_ Hqd]]; eauto.
  - eapply Hq; [|done]. apply queue_non_blocking_queued.
  - by rewrite approve_command_state.
  - eapply Hs; [|done]. apply approve_resume_settled.
  - destruct (deny_effect (svc w) command_id reason) as [[_ ->]|(q & _ & Hsd)]; eauto.
  - destruct (fire_timer_frame i (svc w)) as (Hp & _ & _ & He).
    unfold mirrored in *. rewrite Hp.
    destruct He as [->|[k ->]]; [done|]. by rewrite dispatch_after_snoc.
Qed.

End OverTimeFacts.

Section OverTimeTheorems.

Lemma init_clean (platform : PlatformType) (environ : string → option string)
    (shell_arg : option string) (timeout : Z) :
  pending_commands (init platform environ shell_arg timeout) = ∅ ∧
  emitted (init platform environ shell_arg timeout) = [] ∧
  futures (init platform environ shell_arg timeout) = [].
Proof.
  unfold init, _initialize_default_whitelist.
  generalize (get_platform_specific_commands platform). intros l.
  match goal with |- context [fold_left ?f l ?s0] =>
    assert (H : ∀ s, pending_commands (fold_left f l s) = pending_commands s ∧
                     emitted (fold_left f l s) = emitted s ∧
                     futures (fold_left f l s) = futures s)
  end.
  { induction l as [|e l IH]; intros s; cbn; [done|].
    destruct (IH (set_whitelist s (<[base_name (Entry.command e):=e]> (whitelist s))))
      as (-> & -> & ->). done. }
  apply H.
Qed.

End OverTimeTheorems.

(** X7: in every state the service can reach, a caller blocked in
    [execute_command] on a command that needs approval stays blocked exactly
    as long as its record is in the pending mapping: it is not woken while
    the record is pending, and it has been woken once the record is gone. *)
Theorem waiter_blocked_iff_pending (w : world) (k : string) (p : Pending.t) (fut : nat) :
  reachable w →
  issued w !! k = Some p →
  Pending.handle p = Some fut →
  (await_future (svc w) fut = None ↔ pending_commands (svc w) !! k = Some p).
Proof.
  intros Hr Hk Hh. pose proof (reachable_consistent w Hr) as Hc. split.
  - intros Hwait. destruct (pending_commands (svc w) !! k) as [q|] eqn:E.
    + apply (pending_issued w Hc) in E. congruence.
    + destruct (removed_done w Hc k p fut Hk E Hh) as (f & Hf & Hd).
      unfold await_future in Hwait. rewrite Hf in Hwait. by destruct f.
  - intros Hp. unfold await_future.
    by rewrite (pending_blocked w Hc k p fut Hp Hh).
Qed.

Lemma waiter_blocked_iff_pending_witness :
  await_future (svc denied_world) 0 = None ↔
  pending_commands (svc denied_world) !! "id-1" = Some mkdir_record.
Proof.
  apply (waiter_blocked_iff_pending denied_world "id-1" mkdir_record 0
           denied_world_reachable).
  - vm_compute. reflexivity.
  - reflexivity.
Defined.

(** X8: in every state the service can reach, each record that
    [get_pending_commands] lists is the one stored under its own [id], and
    no two listed records have the same id. *)
Theorem pending_listed_under_own_id (w : world) :
  reachable w →
  (∀ p, p ∈ get_pending_commands (svc w) →
        pending_commands (svc w) !! Pending.id p = Some p) ∧
  NoDup (Pending.id <$> get_pending_commands (svc w)).
Proof.
  intros Hr. pose proof (reachable_consistent w Hr) as Hc.
  assert (Hid : ∀ k p, pending_commands (svc w) !! k = Some p → Pending.id p = k).
  { intros k p Hk. apply (issued_id w Hc). by apply (pending_issued w Hc). }
  split.
  - intros p [k Hk]%elem_of_get_pending_commands. by rewrite (Hid k p Hk).
  - assert (Heq : Pending.id <$> get_pending_commands (svc w)
                  = (map_to_list (pending_commands (svc w))).*1).
    { unfold get_pending_commands. rewrite <- list_fmap_compose.
      apply list_fmap_ext. intros i [k p] Hi. cbn.
      apply Hid, elem_of_map_to_list. by eapply list_elem_of_lookup_2. }
    rewrite Heq. apply NoDup_fst_map_to_list.
Qed.

Lemma pending_listed_under_own_id_witness :
  NoDup (Pending.id <$> get_pending_commands (svc queued_world)).
Proof.
  exact (proj2 (pending_listed_under_own_id queued_world queued_world_reachable)).
Defined.

(** X9: in every state the service can reach, an approved, denied or failed
    event for an id comes after the pending event of the record with that
    id. *)
Theorem decision_events_follow_pending (w : world) (pre post : list event)
    (e : event) (k : string) :
  reachable w →
  emitted (svc w) = pre ++ e :: post →
  terminal_id e = Some k →
  ∃ p, Pending.id p = k ∧ EvPending p ∈ pre.
Proof.
  intros Hr. apply (terminal_after_pending w (reachable_consistent w Hr)).
Qed.

Lemma decision_events_follow_pending_witness :
  ∃ p, Pending.id p = "id-1" ∧ EvPending p ∈ [EvPending mkdir_record].
Proof.
  apply (decision_events_follow_pending denied_world [EvPending mkdir_record] []
           (EvDenied "id-1" "policy") "id-1" denied_world_reachable).
  - vm_compute. reflexivity.
  - reflexivity.
Defined.

(** X10: an id that was issued and has left the pending mapping is never
    pending again, whatever is called afterwards, as long as [uuid4] does
    not repeat an id. *)
Theorem removed_id_never_returns (w w' : world) (k : string) (p : Pending.t) :
  rtc step w w' →
  issued w !! k = Some p →
  pending_commands (svc w) !! k = None →
  pending_commands (svc w') !! k = None.
Proof.
  intros Hsteps. induction Hsteps as [w|w w1 w' Hstep _ IH]; [done|].
  intros Hk Hn. destruct (step_removed w w1 k p Hstep Hk Hn). auto.
Qed.

Lemma resumed_world_step : rtc step racing_world resumed_world.
Proof.
  apply rtc_once.
  apply (step_approve_end racing_world "id-1" mkdir_record (inr (mkResult [] []))).
  apply list_elem_of_singleton. reflexivity.
Qed.

Lemma removed_id_never_returns_witness :
  pending_commands (svc resumed_world) !! "id-1" = None.
Proof.
  apply (removed_id_never_returns racing_world resumed_world "id-1" mkdir_record
           resumed_world_step).
  - vm_compute. reflexivity.
  - vm_compute. reflexivity.
Defined.

(** X11: a completion handle is completed once: whatever is called after a
    future is done, the future keeps the value or error it has, and so does
    the caller who awaits it. *)
Theorem completed_handle_is_final (w w' : world) (fut : nat) (f : future) :
  rtc step w w' →
  futures (svc w) !! fut = Some f →
  fut_done f = true →
  futures (svc w') !! fut = Some f ∧
  await_future (svc w') fut = await_future (svc w) fut.
Proof.
  intros Hsteps Hf Hd.
  assert (H : futures (svc w') !! fut = Some f).
  { induction Hsteps as [w|w w1 w' Hstep _ IH]; [done|].
    apply IH. by eapply step_done_future. }
  split; [exact H|]. unfold await_future. by rewrite H, Hf.
Qed.

Lemma completed_handle_is_final_witness :
  futures (svc resumed_world) !! 0%nat = Some (FutException (RuntimeError "policy")) ∧
  await_future (svc resumed_world) 0 = await_future (svc racing_world) 0.
Proof.
  apply (completed_handle_is_final racing_world resumed_world 0%nat
           (FutException (RuntimeError "policy")) resumed_world_step).
  - vm_compute. reflexivity.
  - reflexivity.
Defined.

(** X12: in every state the service can reach, the dictionary
    [pending_approvals] that the listeners of [main.py] maintain holds
    exactly the ids of the pending mapping, each with the command and the
    arguments of its record. *)
Theorem dispatch_mirror_agrees (w : world) :
  reachable w →
  pending_approvals (dispatch_after (emitted (svc w)))
    = summary <$> pending_commands (svc w).
Proof.
  intros (platform & environ & shell_arg & timeout & Hr).
  change (mirrored (svc w)). revert w Hr. apply rtc_ind_r.
  - unfold mirrored, initial. cbn [svc].
    destruct (init_clean platform environ shell_arg timeout) as (-> & -> & _).
    by rewrite fmap_empty.
  - intros y z _ Hstep Hy. by eapply step_mirrored.
Qed.

Lemma dispatch_mirror_agrees_witness :
  pending_approvals (dispatch_after (emitted (svc queued_world)))
    = summary <$> pending_commands (svc queued_world).
Proof.
  exact (dispatch_mirror_agrees queued_world queued_world_reachable).
Defined.

(** ** Execution paths *)

(** X13: a command classified SAFE is run at once, with the per-call
    timeout it was given, and [execute_command] returns what the run
    returned or raised; the service is left exactly as it was: no pending
    record, no event, no timer. *)
Theorem execute_safe_runs_without_queue (platform : PlatformType) (os : os_model)
    (s : CommandService) (command : string) (args : option (list string))
    (timeout : option Z) (requested_by : option string) (cmd_id : string) (now : Z) :
  _validate_command s command (default [] args) = Some SAFE →
  run_alone platform os (execute_command s command args timeout requested_by cmd_id now)
    = Some (s, (_run_now platform os s command (default [] args) timeout).1,
               (_run_now platform os s command (default [] args) timeout).2).
Proof.
  intros Hv. unfold execute_command. cbn zeta. rewrite Hv. cbn [run_alone].
  by destruct (_run_now platform os s command (default [] args) timeout).
Qed.

Lemma execute_safe_runs_without_queue_witness :
  run_alone LINUX (os_running 5 0 [x68; x69; x0a] [])
            (execute_command linux_service "echo" (Some ["hi"]) None None "id-1" 0)
    = Some (linux_service, inr (mkResult [104%N; 105%N; 10%N] []),
            [OsSpawn ["/bin/bash"; "-c"; "echo hi"]]).
Proof.
  refine (eq_trans (execute_safe_runs_without_queue LINUX
            (os_running 5 0 [x68; x69; x0a] []) linux_service "echo" (Some ["hi"])
            None None "id-1" 0%Z _) _).
  - vm_compute. reflexivity.
  - vm_compute. reflexivity.
Defined.

(** X14: a command classified REQUIRES_APPROVAL is not run by
    [execute_command]: the caller is left waiting on a new future, a record
    with the command, the arguments, the requester and the clock reading is
    stored under the new id, and the pending event carries that record. The
    per-call timeout is not kept: the approval runs the command with the
    default timeout. *)
Theorem execute_requires_approval_blocks (s : CommandService) (command : string)
    (args : option (list string)) (timeout : option Z) (requested_by : option string)
    (cmd_id : string) (now : Z) :
  _validate_command s command (default [] args) = Some REQUIRES_APPROVAL →
  let c := execute_command s command args timeout requested_by cmd_id now in
  let p := Pending.mk cmd_id command (default [] args) now requested_by
                      (Some (length (futures s))) in
  c = AwaitFuture (coro_state c) (length (futures s)) ∧
  pending_commands (coro_state c) = <[cmd_id := p]> (pending_commands s) ∧
  emitted (coro_state c) = emitted s ++ [EvPending p] ∧
  whitelist (coro_state c) = whitelist s ∧
  (∀ platform os, run_alone platform os c = None) ∧
  approve_command (coro_state c) cmd_id =
    AwaitRun (coro_state c) command (default [] args) None (approve_resume cmd_id p).
Proof.
  intros Hv c p.
  assert (Hc : c = _queue_command_for_approval s command (Some (default [] args))
                     requested_by cmd_id now).
  { subst c. unfold execute_command. cbn zeta. by rewrite Hv. }
  rewrite Hc. unfold _queue_command_for_approval. cbn.
  split; [done|]. split; [done|]. split; [done|]. split; [done|]. split.
  - intros platform os. unfold await_future. cbn.
    rewrite lookup_app_r by lia. by rewrite Nat.sub_diag.
  - unfold approve_command. cbn. by rewrite lookup_insert_eq.
Qed.

Lemma execute_requires_approval_blocks_witness :
  run_alone LINUX (os_running 5 0 [] [])
            (execute_command linux_service "mkdir" (Some ["testdir"]) (Some 100%Z) None
                             "id-1" 0) = None.
Proof.
  refine (proj1 (proj2 (proj2 (proj2 (proj2 (execute_requires_approval_blocks
            linux_service "mkdir" (Some ["testdir"]) (Some 100%Z) None "id-1" 0%Z _)))))
            LINUX (os_running 5 0 [] [])).
  vm_compute. reflexivity.
Defined.

(** X15: [approve_command] on an id that is not pending raises NotFound,
    starts no process and changes nothing. On a pending id it runs the
    command with the record still pending. When the run has succeeded, in
    whatever state the service is by then, it returns the result, removes
    the id, publishes an approved event with the id and the two outputs and
    leaves the whitelist alone; the record's future is completed with the
    result when it is still pending, so that the caller blocked on it gets
    the same result, while a future already completed, as by a
    [deny_command] issued during the run, keeps what it holds; the stub
    handle of a non-blocking record changes no future. *)
Theorem approve_success_spec (platform : PlatformType) (os : os_model)
    (s : CommandService) (command_id : string) :
  (pending_commands s !! command_id = None →
   run_alone platform os (approve_command s command_id)
     = Some (s, inl (RuntimeError ("No pending command with ID: " +:+ command_id)), [])) ∧
  (∀ pending,
     pending_commands s !! command_id = Some pending →
     approve_command s command_id
     = AwaitRun s (Pending.command pending) (Pending.args pending) None
                (approve_resume command_id pending) ∧
     (∀ s' res,
         let after := approve_resume command_id pending s' (inr res) in
         after.2 = inr res ∧
         pending_commands after.1 = delete command_id (pending_commands s') ∧
         emitted after.1
         = emitted s' ++ [EvApproved command_id (stdout res) (stderr res)] ∧
         whitelist after.1 = whitelist s' ∧
         (∀ fut, Pending.handle pending = Some fut →
                 (futures s' !! fut = Some FutPending →
                  await_future after.1 fut = Some (inr res)) ∧
                 (∀ f, futures s' !! fut = Some f → fut_done f = true →
                       futures after.1 = futures s' ∧
                       await_future after.1 fut = await_future s' fut)) ∧
         (Pending.handle pending = None → futures after.1 = futures s')) ∧
     (∀ res fx,
         _run_now platform os s (Pending.command pending) (Pending.args pending) None
         = (inr res, fx) →
         run_alone platform os (approve_command s command_id)
         = Some (approve_resume command_id pending s (inr res), fx))).
Proof.
  split.
  - intros Hn. unfold approve_command. by rewrite Hn.
  - intros pending Hp.
    assert (Ha : approve_command s command_id
                 = AwaitRun s (Pending.command pending) (Pending.args pending) None
                            (approve_resume command_id pending)).
    { unfold approve_command. by rewrite Hp. }
    split; [exact Ha|]. split.
    + intros s' res after. subst after.
      destruct (approve_resume_success command_id pending s' res) as (Hpc & Hem & Hr).
      split; [exact Hr|]. split; [exact Hpc|]. split; [exact Hem|].
      cbn [approve_resume fst].
      set (s1 := emit (set_pending s' (delete command_id (pending_commands s')))
                      (EvApproved command_id (stdout res) (stderr res))).
      split; [by destruct (resolve_frame pending res s1) as (_ & -> & _)|].
      split.
      * intros fut Hh. split.
        -- intros Hf. by apply resolve_wakes_waiter.
        -- intros f Hf Hd. by rewrite (resolve_done_noop pending res s1 fut f Hh Hf Hd).
      * intros Hh. unfold resolve. by rewrite Hh.
    + intros res fx Hrun. rewrite Ha. cbn [run_alone]. by rewrite Hrun.
Qed.

Lemma approve_success_spec_witness :
  await_future (approve_resume "id-1" mkdir_record (svc racing_world)
                               (inr (mkResult [] []))).1 0
  = await_future (svc racing_world) 0.
Proof.
  destruct (proj2 (approve_success_spec LINUX (os_running 5 0 [] []) (svc queued_world)
                     "id-1") mkdir_record) as (_ & Hres & _).
  - vm_compute. reflexivity.
  - destruct (Hres (svc racing_world) (mkResult [] [])) as (_ & _ & _ & _ & Hfut & _).
    destruct (Hfut 0%nat eq_refl) as [_ Hdone].
    destruct (Hdone (FutException (RuntimeError "policy"))) as [_ Hw].
    + vm_compute. reflexivity.
    + reflexivity.
    + exact Hw.
Defined.

(** ** The tools *)

Section ToolFacts.

(** On a whitelist keyed by command, searching the values for a command
    field is looking the key up. *)
Lemma find_by_command (s : CommandService) (b : string) :
  keyed_by_command s →
  List.find (fun e => bool_decide (Entry.command e = b)) (get_whitelist s) = whitelist s !! b.
Proof.
  intros Hs.
  destruct (List.find _ _) as [e|] eqn:F.
  - apply List.find_some in F as [Hin Hb]. apply bool_decide_eq_true in Hb.
    apply list_elem_of_In in Hin. unfold get_whitelist in Hin.
    apply list_elem_of_fmap in Hin as ([k e'] & -> & Hin). cbn in *.
    apply elem_of_map_to_list in Hin. rewrite <- Hb, (Hs _ _ Hin). by symmetry.
  - destruct (whitelist s !! b) as [e|] eqn:W; [|done].
    assert (Hin : In e (get_whitelist s)).
    { apply list_elem_of_In. unfold get_whitelist. apply list_elem_of_fmap.
      exists (b, e). split; [done|]. by apply elem_of_map_to_list. }
    pose proof (List.find_none _ _ F e Hin) as Hb. cbn in Hb.
    apply bool_decide_eq_false in Hb. destruct Hb. by apply Hs.
Qed.

Lemma reject_whitelist (p : Pending.t) (e : exn) (s : CommandService) :
  whitelist (reject p e s) = whitelist s.
Proof.
  unfold reject. destruct (Pending.handle p) as [fut|]; [|done].
  destruct (futures s !! fut) as [f|]; [|done]. by destruct (fut_done f).
Qed.

Lemma resolve_whitelist (p : Pending.t) (r : CommandResult) (s : CommandService) :
  whitelist (resolve p r s) = whitelist s.
Proof.
  unfold resolve. destruct (Pending.handle p) as [fut|]; [|done].
  destruct (futures s !! fut) as [f|]; [|done]. by destruct (fut_done f).
Qed.

(** Only the three whitelist methods change the whitelist. *)
Lemma step_whitelist (w w' : world) :
  step w w' →
  whitelist (svc w') = whitelist (svc w) ∨
  ∃ o, whitelist (svc w') = whitelist (apply_registry_op (svc w) o).
Proof.
  intros Hstep. destruct Hstep; cbn [svc].
  - right. by eexists.
  - left. unfold execute_command. cbn zeta.
    by destruct (_validate_command _ _ _) as [[| |]|].
  - by left.
  - left. by rewrite approve_command_state.
  - left. unfold approve_resume. destruct r as [e|res]; cbn [fst].
    + by rewrite reject_whitelist.
    + by rewrite resolve_whitelist.
  - left. unfold deny_command. cbn zeta.
    destruct (pending_commands (svc w) !! command_id); [|done].
    cbn [fst]. by rewrite reject_whitelist.
  - left. by destruct (fire_timer_frame i (svc w)) as (_ & _ & Hw & _).
Qed.

Lemma reachable_keyed (w : world) : reachable w → keyed_by_command (svc w).
Proof.
  intros (platform & environ & shell_arg & timeout & Hr).
  revert w Hr. apply rtc_ind_r; [apply init_keyed|].
  intros y z _ Hstep Hy.
  destruct (step_whitelist _ _ Hstep) as [Hw|[o Hw]].
  - unfold keyed_by_command. rewrite Hw. exact Hy.
  - unfold keyed_by_command. rewrite Hw. by apply apply_registry_op_keyed.
Qed.

(** A call the validator sends to the queue does not complete by itself. *)
Lemma execute_blocks (platform : PlatformType) (os : os_model) (s : CommandService)
    (command : string) (args : option (list string)) (timeout : option Z)
    (requested_by : option string) (cmd_id : string) (now : Z) :
  _validate_command s command (default [] args) = Some REQUIRES_APPROVAL →
  run_alone platform os (execute_command s command args timeout requested_by cmd_id now)
  = None.
Proof.
  intros Hv. unfold execute_command. cbn zeta. rewrite Hv.
  unfold _queue_command_for_approval. cbn. unfold await_future. cbn.
  rewrite lookup_app_r by lia. by rewrite Nat.sub_diag.
Qed.

Lemma tool_lookup (s : CommandService) :
  keyed_by_command s →
  ∀ basename command, Tools.wl_entry basename s command = whitelist s !! basename command.
Proof. intros Hs basename command. by apply find_by_command. Qed.

End ToolFacts.

(** X16: in every state the service can reach, the linear search of the
    tool [execute_command] through [get_whitelist()] for an entry whose
    [command] equals the base name finds exactly what the whitelist
    dictionary holds under that base name, whatever order the dictionary
    lists its values in. *)
Theorem tool_lookup_is_registry_lookup (basename : string → string) (w : world)
    (command : string) :
  reachable w →
  Tools.wl_entry basename (svc w) command = whitelist (svc w) !! basename command.
Proof.
  intros Hr. apply tool_lookup. by apply reachable_keyed.
Qed.

Lemma tool_lookup_is_registry_lookup_witness :
  Tools.wl_entry posixpath_basename (svc queued_world) "/usr/bin/mkdir"
  = whitelist (svc queued_world) !! posixpath_basename "/usr/bin/mkdir".
Proof.
  apply (tool_lookup_is_registry_lookup posixpath_basename queued_world "/usr/bin/mkdir").
  exact queued_world_reachable.
Defined.

(** X17: the tool [execute_command] takes one of two paths. When the entry
    under the tool's base name has the level REQUIRES_APPROVAL it replies at
    once: the command is queued under the new id with the stub callbacks,
    no future is created and nothing is run. Otherwise it awaits the
    service's [execute_command]; if the validator then asks for approval the
    tool call does not complete by itself, and when the tool and the service
    agree on the base name this happens only for a SAFE entry that carries
    argument patterns. *)
Theorem execute_tool_paths (basename : string → string) (w : world) (command : string)
    (args : option (list string)) (cmd_id : string) (now : Z) :
  reachable w →
  (∀ e, whitelist (svc w) !! basename command = Some e →
        Entry.security_level e = REQUIRES_APPROVAL →
        ∃ s' response,
          Tools.execute_command basename (svc w) command args cmd_id now
          = Replied s' response ∧
          pending_commands s'
          = <[cmd_id := Pending.mk cmd_id command (default [] args) now None None]>
              (pending_commands (svc w)) ∧
          futures s' = futures (svc w) ∧ whitelist s' = whitelist (svc w)) ∧
  ((∀ e, whitelist (svc w) !! basename command = Some e →
         Entry.security_level e ≠ REQUIRES_APPROVAL) →
   Tools.execute_command basename (svc w) command args cmd_id now
   = Awaiting (execute_command (svc w) command (Some (default [] args)) None None
                               cmd_id now)
              Tools.execute_response ∧
   (_validate_command (svc w) command (default [] args) = Some REQUIRES_APPROVAL →
    (∀ platform os,
        run_tool platform os
                 (Tools.execute_command basename (svc w) command args cmd_id now) = None) ∧
    (basename command = base_name command →
     ∃ e p ps, whitelist (svc w) !! base_name command = Some e ∧
               Entry.security_level e = SAFE ∧
               Entry.allowed_args e = Some (p :: ps)))).
Proof.
  intros Hr.
  pose proof (tool_lookup (svc w) (reachable_keyed w Hr)) as Hfind.
  split.
  - intros e He Hl. unfold Tools.execute_command. cbn zeta.
    rewrite (Hfind basename command), He, Hl. cbn. eauto 10.
  - intros Hno.
    assert (Ht : Tools.execute_command basename (svc w) command args cmd_id now
                 = Awaiting (execute_command (svc w) command (Some (default [] args)) None
                                             None cmd_id now)
                            Tools.execute_response).
    { unfold Tools.execute_command. cbn zeta. rewrite (Hfind basename command).
      destruct (whitelist (svc w) !! basename command) as [e|] eqn:He; [|done].
      rewrite bool_decide_eq_false_2; [done|]. by apply Hno. }
    split; [exact Ht|]. intros Hv. split.
    + intros platform os. rewrite Ht. cbn [run_tool].
      by rewrite (execute_blocks platform os (svc w) command (Some (default [] args))).
    + intros Hb. unfold _validate_command in Hv. cbn zeta in Hv. rewrite <- Hb in Hv.
      rewrite <- Hb.
      destruct (whitelist (svc w) !! basename command) as [e|] eqn:He; [|done].
      specialize (Hno e eq_refl).
      destruct (decide (Entry.security_level e = FORBIDDEN)); [done|].
      destruct (Entry.allowed_args e) as [[|p ps]|] eqn:Ha; cbn in Hv;
        try (injection Hv as Hv; done).
      exists e, p, ps. split; [done|]. split; [|done].
      destruct (Entry.security_level e); done.
Qed.

Lemma execute_tool_paths_witness :
  run_tool LINUX os_no_spawn
           (Tools.execute_command posixpath_basename (svc linux_world) "ls" (Some ["-la"])
                                  "id-1" 0) = None.
Proof.
  destruct (execute_tool_paths posixpath_basename linux_world "ls" (Some ["-la"]) "id-1" 0)
    as [_ H2].
  { exists LINUX, (fun _ => None), None, 30000%Z. apply rtc_refl. }
  destruct H2 as [_ H3].
  { intros e He. vm_compute in He. injection He as <-. discriminate. }
  destruct H3 as [Hb _].
  { vm_compute. reflexivity. }
  apply Hb.
Defined.

Lemma racing_world_reachable : reachable racing_world.
Proof.
  destruct queued_world_reachable as (pl & env & sh & t & Hq).
  exists pl, env, sh, t.
  assert (Hp : pending_commands (svc queued_world) !! "id-1" = Some mkdir_record).
  { vm_compute. reflexivity. }
  pose proof (step_approve_begin queued_world "id-1" mkdir_record Hp) as H1.
  set (w1 := mkWorld (coro_state (approve_command (svc queued_world) "id-1"))
                     (issued queued_world) (("id-1", mkdir_record) :: running queued_world))
    in H1.
  pose proof (step_deny w1 "id-1" (Some "policy")) as H2.
  assert (E : mkWorld (deny_command (svc w1) "id-1" (Some "policy")).1 (issued w1)
                      (running w1) = racing_world).
  { unfold racing_world, w1. cbn [svc issued running]. by rewrite approve_command_state. }
  rewrite E in H2.
  eapply rtc_r; [eapply rtc_r; [exact Hq | exact H1] | exact H2].
Qed.

(** X18: a call of the tool [approve_command] that found its id pending and
    is suspended in the run replies, when it is resumed, with the outcome
    of the run in its own format, whatever happened to the service
    meanwhile. The tool call blocked on the record's future completes with
    the same outcome, in the format of the tool [execute_command], when the
    id is still pending by then; when the id was decided during the run, by
    a [deny_command], the blocked call keeps that earlier outcome, so that
    the approver can report success while the blocked call reports the
    denial. When the default timeout is an [int] a [float] can hold and the
    child outlasts it, the outcome of the run is the [NameError] of the
    timeout handler, whose message both formats carry, and the child was
    started but not killed. *)
Theorem approve_tool_replies (platform : PlatformType) (os : os_model) (w : world)
    (s0 : CommandService) (k : string) (p : Pending.t) (fut : nat)
    (r : exn + CommandResult) :
  reachable w →
  (k, p) ∈ running w →
  pending_commands s0 !! k = Some p →
  Pending.handle p = Some fut →
  resume_tool (Tools.approve_command s0 k) (svc w) r
  = Some ((approve_resume k p (svc w) r).1, Tools.approve_response r) ∧
  (pending_commands (svc w) !! k = Some p ∨ pending_commands (svc w) !! k = None) ∧
  (pending_commands (svc w) !! k = Some p →
   run_tool platform os
            (Awaiting (AwaitFuture (approve_resume k p (svc w) r).1 fut)
                      Tools.execute_response)
   = Some ((approve_resume k p (svc w) r).1, Tools.execute_response r, [])) ∧
  (pending_commands (svc w) !! k = None →
   ∃ r0, await_future (svc w) fut = Some r0 ∧
         run_tool platform os
                  (Awaiting (AwaitFuture (approve_resume k p (svc w) r).1 fut)
                            Tools.execute_response)
         = Some ((approve_resume k p (svc w) r).1, Tools.execute_response r0, [])) ∧
  (∀ proc,
      float_overflows (default_timeout s0) = false →
      os (shell_cmd platform s0 (Pending.command p) (Pending.args p)) = Spawns proc →
      (default_timeout s0 < run_ms proc)%Z →
      _run_now platform os s0 (Pending.command p) (Pending.args p) None
      = (inl (NameError "contextlib"),
         [OsSpawn (shell_cmd platform s0 (Pending.command p) (Pending.args p))]) ∧
      Tools.approve_response (inl (NameError "contextlib"))
      = text_of "Command approval failed: name 'contextlib' is not defined" ∧
      Tools.execute_response (inl (NameError "contextlib"))
      = text_of "Command execution failed: name 'contextlib' is not defined").
Proof.
  intros Hr Hrun Hp0 Hh.
  pose proof (reachable_consistent w Hr) as Hc.
  pose proof (running_issued w Hc k p Hrun) as Hi.
  split; [|split; [|split; [|split]]].
  - unfold Tools.approve_command, approve_command. rewrite Hp0. cbn [resume_tool].
    by destruct r.
  - destruct (pending_commands (svc w) !! k) as [p'|] eqn:E; [left | by right].
    apply (pending_issued w Hc) in E. congruence.
  - intros Hp.
    pose proof (pending_blocked w Hc k p fut Hp Hh) as Hf.
    cbn [run_tool run_alone]. destruct r as [e|res]; cbn [approve_resume fst].
    + by rewrite (reject_wakes_waiter p e
                    (emit (set_pending (svc w) (delete k (pending_commands (svc w))))
                          (EvFailed k e)) fut Hh Hf).
    + by rewrite (resolve_wakes_waiter p res
                    (emit (set_pending (svc w) (delete k (pending_commands (svc w))))
                          (EvApproved k (stdout res) (stderr res))) fut Hh Hf).
  - intros Hn.
    destruct (removed_done w Hc k p fut Hi Hn Hh) as (f & Hf & Hd).
    assert (Hr0 : ∃ r0, await_future (svc w) fut = Some r0).
    { unfold await_future. rewrite Hf. destruct f; [done | eauto | eauto]. }
    destruct Hr0 as [r0 Hr0]. exists r0. split; [exact Hr0|].
    cbn [run_tool run_alone]. destruct r as [e|res]; cbn [approve_resume fst].
    + rewrite (reject_done_noop p e
                 (emit (set_pending (svc w) (delete k (pending_commands (svc w))))
                       (EvFailed k e)) fut f Hh Hf Hd).
      unfold await_future in *. cbn [futures emit set_pending]. by rewrite Hr0.
    + rewrite (resolve_done_noop p res
                 (emit (set_pending (svc w) (delete k (pending_commands (svc w))))
                       (EvApproved k (stdout res) (stderr res))) fut f Hh Hf Hd).
      unfold await_future in *. cbn [futures emit set_pending]. by rewrite Hr0.
  - intros proc Hfl Hos Hlate.
    split; [|split; reflexivity].
    by apply (run_now_timeout_branch platform os s0 _ _ None proc).
Qed.

Lemma approve_tool_replies_witness :
  ∃ r0, await_future (svc racing_world) 0 = Some r0 ∧
        run_tool LINUX (os_running 5 0 [] [])
                 (Awaiting (AwaitFuture (approve_resume "id-1" mkdir_record
                                                        (svc racing_world)
                                                        (inr (mkResult [] []))).1 0)
                           Tools.execute_response)
        = Some ((approve_resume "id-1" mkdir_record (svc racing_world)
                                (inr (mkResult [] []))).1,
                Tools.execute_response r0, []).
Proof.
  destruct (approve_tool_replies LINUX (os_running 5 0 [] []) racing_world
                                 (svc queued_world) "id-1" mkdir_record 0
                                 (inr (mkResult [] [])))
    as (_ & _ & _ & Hdone & _).
  - exact racing_world_reachable.
  - unfold racing_world. cbn [running]. apply list_elem_of_singleton. reflexivity.
  - vm_compute. reflexivity.
  - reflexivity.
  - apply Hdone. vm_compute. reflexivity.
Defined.

(** X19: the tools [add_to_whitelist] and [update_security_level] read
    their level argument by exact comparison: the three values of the
    enumeration are read back as themselves and every other string,
    [SAFE] in capitals included, as FORBIDDEN. A command without path
    separators added through the tool is then validated to the level read,
    whatever its arguments, since the tool stores no argument patterns; and
    the update tool reports success for a command that is not whitelisted
    while changing nothing. *)
Theorem tool_levels (s : CommandService) (command securityLevel : string)
    (description : option string) :
  base_name command = command →
  (∀ l, Tools.level (level_value l) = l) ∧
  (Tools.level securityLevel = SAFE ↔ securityLevel = "safe") ∧
  (Tools.level securityLevel = REQUIRES_APPROVAL ↔ securityLevel = "requires_approval") ∧
  (∀ args, _validate_command
             (Tools.add_to_whitelist s command securityLevel description).1 command args
           = Some (Tools.level securityLevel)) ∧
  (whitelist s !! command = None →
   Tools.update_security_level s command securityLevel
   = (s, "Security level for command '" +:+ command +:+ "' updated to '" +:+
         securityLevel +:+ "'")).
Proof.
  intros Hb. split; [by intros []|].
  split; [|split; [|split]].
  - unfold Tools.level. repeat case_decide; split; intros; subst; done.
  - unfold Tools.level. repeat case_decide; split; intros; subst; done.
  - intros args. unfold _validate_command, Tools.add_to_whitelist. cbn.
    rewrite Hb, lookup_insert_eq. cbn. case_decide as Hl; [by rewrite Hl | done].
  - intros Hn. unfold Tools.update_security_level, update_security_level. by rewrite Hn.
Qed.

Lemma tool_levels_witness :
  _validate_command (Tools.add_to_whitelist linux_service "ls" "SAFE" None).1 "ls" ["-la"]
  = Some (Tools.level "SAFE").
Proof.
  destruct (tool_levels linux_service "ls" "SAFE" None) as (_ & _ & _ & Hv & _).
  - reflexivity.
  - apply Hv.
Defined.

(** X20: the tool [deny_command] never raises. With no reason or with the
    empty string the service is given the reason ["Command denied"] and the
    reply carries no reason. On a pending id the record is removed, the tool
    call blocked on its future completes with the reason as a failure reply,
    and a second denial of the same id is answered with the not-found
    failure, leaving the service as it is. *)
Theorem deny_tool_spec (platform : PlatformType) (os : os_model) (w : world) (k : string)
    (p : Pending.t) (reason : option string) :
  reachable w →
  pending_commands (svc w) !! k = Some p →
  let r := default "Command denied" (Tools.truthy reason) in
  let s' := (Tools.deny_command (svc w) k reason).1 in
  Tools.deny_command (svc w) k reason
  = ((deny_command (svc w) k (Some r)).1,
     "Command denied" +:+ match Tools.truthy reason with
                          | Some x => ": " +:+ x
                          | None => EmptyString
                          end) ∧
  Tools.deny_command (svc w) k (Some EmptyString) = Tools.deny_command (svc w) k None ∧
  pending_commands s' = delete k (pending_commands (svc w)) ∧
  emitted s' = emitted (svc w) ++ [EvDenied k r] ∧
  (∀ fut, Pending.handle p = Some fut →
          run_tool platform os (Awaiting (AwaitFuture s' fut) Tools.execute_response)
          = Some (s', text_of ("Command execution failed: " +:+ r), [])) ∧
  (∀ reason', Tools.deny_command s' k reason'
              = (s', "Command denial failed: No pending command with ID: " +:+ k)).
Proof.
  intros Hr Hp r s'.
  assert (Hs : (deny_command (svc w) k (Some r)).1
               = reject p (RuntimeError r)
                   (emit (set_pending (svc w) (delete k (pending_commands (svc w))))
                         (EvDenied k r))).
  { unfold deny_command. cbn zeta. by rewrite Hp. }
  assert (Ht : Tools.deny_command (svc w) k reason
               = ((deny_command (svc w) k (Some r)).1,
                  "Command denied" +:+ match Tools.truthy reason with
                                       | Some x => ": " +:+ x
                                       | None => EmptyString
                                       end)).
  { unfold Tools.deny_command. fold r. unfold deny_command. cbn zeta. by rewrite Hp. }
  assert (Es : s' = reject p (RuntimeError r)
                      (emit (set_pending (svc w) (delete k (pending_commands (svc w))))
                            (EvDenied k r))).
  { subst s'. by rewrite Ht. }
  clearbody s'.
  destruct (reject_frame p (RuntimeError r)
              (emit (set_pending (svc w) (delete k (pending_commands (svc w))))
                    (EvDenied k r))) as (Hpc & _ & Hem & _).
  rewrite <- Es in Hpc, Hem. cbn [pending_commands emitted emit set_pending] in Hpc, Hem.
  split; [exact Ht|]. split; [reflexivity|]. split; [exact Hpc|]. split; [exact Hem|].
  split.
  - intros fut Hh.
    pose proof (pending_blocked w (reachable_consistent w Hr) k p fut Hp Hh) as Hf.
    cbn [run_tool run_alone]. rewrite Es.
    by rewrite (reject_wakes_waiter p (RuntimeError r)
                  (emit (set_pending (svc w) (delete k (pending_commands (svc w))))
                        (EvDenied k r)) fut Hh Hf).
  - intros reason'. unfold Tools.deny_command, deny_command. cbn zeta.
    by rewrite Hpc, lookup_delete_eq.
Qed.

Lemma deny_tool_spec_witness :
  ∃ s' reply, Tools.deny_command (svc queued_world) "id-1" (Some "policy") = (s', reply).
Proof.
  destruct (deny_tool_spec LINUX os_no_spawn queued_world "id-1" mkdir_record (Some "policy"))
    as (Hd & _).
  - exact queued_world_reachable.
  - vm_compute. reflexivity.
  - eexists _, _. exact Hd.
Defined.

(** ** The logger *)

Section LoggerFacts.

Variable h : host.

Lemma string_app_nil_r (s : string) : s +:+ EmptyString = s.
Proof. induction s as [|c s IH]; [done|]. by rewrite app_cons, IH. Qed.

(** No call revives a logger that is disabled or closed, and none of them
    touches a file or prints. *)
Lemma ops_off (ops : list log_op) (w : log_world) (l : Logger.t) :
  _logger_instance w = Some l →
  Logger.enabled l = false ∨ Logger.file_stream l = None →
  fs (fold_left (apply_log_op h) ops w) = fs w ∧
  err_lines (fold_left (apply_log_op h) ops w) = err_lines w ∧
  ∃ l', _logger_instance (fold_left (apply_log_op h) ops w) = Some l' ∧
        Logger.log_file l' = Logger.log_file l ∧
        (Logger.enabled l' = false ∨ Logger.file_stream l' = None).
Proof.
  revert w l. induction ops as [|o ops IH]; intros w l Hi Hoff; cbn [fold_left].
  { eauto 10. }
  assert (Hstep : fs (apply_log_op h w o) = fs w ∧
                  err_lines (apply_log_op h w o) = err_lines w ∧
                  ∃ l', _logger_instance (apply_log_op h w o) = Some l' ∧
                        Logger.log_file l' = Logger.log_file l ∧
                        (Logger.enabled l' = false ∨ Logger.file_stream l' = None)).
  { destruct o as [timestamp level message| |log_file enabled started timestamp];
      cbn [apply_log_op]; unfold get_logger; rewrite Hi.
    - cbn [fs err_lines _logger_instance]. split; [|eauto 10].
      unfold Logger.log. destruct Hoff as [-> | ->]; [done|].
      by destruct (Logger.enabled l).
    - cbn [fs err_lines _logger_instance]. split; [done|]. split; [done|].
      exists (Logger.close l). split; [done|]. unfold Logger.close.
      destruct (Logger.file_stream l) eqn:E; cbn; [|by rewrite E; eauto].
      split; [done|]. by right.
    - cbn [snd]. eauto 10. }
  destruct Hstep as (Hfs & Herr & l' & Hi' & Hlf & Hoff').
  destruct (IH _ _ Hi' Hoff') as (Hfs2 & Herr2 & l'' & Hi'' & Hlf2 & Hoff'').
  rewrite Hfs2, Herr2, Hfs, Herr. split; [done|]. split; [done|].
  exists l''. rewrite Hlf2, Hlf. done.
Qed.

(** While the stream is open each [log] appends its line to the file and
    nothing else is touched. *)
Lemma ops_open (ops : list log_op) (w : log_world) (l : Logger.t) (c : string) :
  _logger_instance w = Some l →
  Logger.enabled l = true →
  Logger.file_stream l = Some (Logger.log_file l) →
  fs w !! Logger.log_file l = Some c →
  fs (fold_left (apply_log_op h) ops w) !! Logger.log_file l = Some (c +:+ transcript ops) ∧
  (∀ p, p ≠ Logger.log_file l → fs (fold_left (apply_log_op h) ops w) !! p = fs w !! p) ∧
  err_lines (fold_left (apply_log_op h) ops w) = err_lines w.
Proof.
  revert w l c. induction ops as [|o ops IH]; intros w l c Hi He Hs Hc; cbn [fold_left].
  { cbn. by rewrite string_app_nil_r. }
  destruct o as [timestamp level message| |log_file enabled started timestamp].
  - cbn [apply_log_op transcript]. rewrite Hi.
    set (w1 := mkLogWorld _ _ _).
    assert (Hfs1 : fs w1 = <[Logger.log_file l := c +:+ Logger.log_message timestamp level
                                                                        message]> (fs w)).
    { subst w1. cbn [fs]. unfold Logger.log. by rewrite He, Hs, Hc. }
    destruct (IH w1 l (c +:+ Logger.log_message timestamp level message))
      as (Hf & Ho & Herr); try done.
    { by rewrite Hfs1, lookup_insert_eq. }
    split; [by rewrite Hf, string_app_assoc|]. split; [|done].
    intros p Hp. rewrite (Ho p Hp), Hfs1. by rewrite lookup_insert_ne.
  - cbn [apply_log_op transcript]. rewrite Hi.
    set (w1 := mkLogWorld _ _ _).
    destruct (ops_off ops w1 (Logger.close l)) as (Hf & Herr & _); [done| |].
    { right. unfold Logger.close. by rewrite Hs. }
    rewrite Hf, Herr. subst w1. cbn [fs err_lines].
    by rewrite string_app_nil_r.
  - cbn [apply_log_op transcript]. unfold get_logger. rewrite Hi. cbn [snd].
    by apply IH.
Qed.

End LoggerFacts.

(** X21: when the first [get_logger] call creates an enabled logger, the log
    file is from then on a transcript of the calls made on the singleton:
    whatever the file held before, it holds the header line followed by the
    line of each [log] call in call order up to the first [close]; calls
    after a [close] write nothing, a later [get_logger] does not reopen the
    file whatever arguments it is given, and no other file is touched. The
    file is the one asked for, or [./super-shell-mcp.log] when the
    directory could not be made. *)
Theorem log_file_is_transcript (h : host) (log_file : string) (enabled : option bool)
    (started timestamp : string) (w w' : log_world) (l : Logger.t) (ops : list log_op) :
  _logger_instance w = None →
  get_logger h (Some log_file) enabled started timestamp w = (inr l, w') →
  Logger.enabled l = true →
  fs (fold_left (apply_log_op h) ops w') !! Logger.log_file l
  = Some (Logger.log_message timestamp "INFO" ("Logging started at " +:+ started) +:+
          transcript ops) ∧
  (∀ p, p ≠ Logger.log_file l →
        fs (fold_left (apply_log_op h) ops w') !! p = fs w !! p) ∧
  (Logger.log_file l = log_file ∨
   (∃ e, mkdir h (parent h log_file) = Some e) ∧
   Logger.log_file l = "./super-shell-mcp.log").
Proof.
  intros Hn Hg He. unfold get_logger in Hg. rewrite Hn in Hg.
  destruct log_file as [|ch rest]; [done|].
  unfold Logger.init in Hg.
  destruct (default true enabled) eqn:Hen.
  2:{ injection Hg as <- <-. done. }
  cbn zeta in Hg.
  set (path := match mkdir h (parent h (String ch rest)) with
               | None => String ch rest
               | Some _ => "./super-shell-mcp.log"
               end).
  assert (Hpath : path = String ch rest ∨
                  (∃ e, mkdir h (parent h (String ch rest)) = Some e) ∧
                  path = "./super-shell-mcp.log").
  { subst path. destruct (mkdir h _); eauto. }
  assert (Hg' : ∃ printed,
             match open_w h path with
             | Some e => (inl e, fs w, printed)
             | None =>
                 (inr (Logger.mk path true (Some path)),
                  Logger.log (Logger.mk path true (Some path))
                             (<[path := EmptyString]> (fs w)) timestamp "INFO"
                             ("Logging started at " +:+ started), printed)
             end = (inr l, fs w', err_lines w') ∧ _logger_instance w' = Some l).
  { subst path. destruct (mkdir h _); eexists;
      (destruct (open_w h _); [done|]); injection Hg as <- <-; done. }
  clear Hg. destruct Hg' as (printed & Hg & Hi).
  destruct (open_w h path); [done|]. injection Hg as <- Hfs _.
  cbn [Logger.log_file]. split; [|split; [|exact Hpath]].
  - destruct (ops_open h ops w' (Logger.mk path true (Some path))
                (Logger.log_message timestamp "INFO" ("Logging started at " +:+ started)))
      as (Hf & _); try done.
    rewrite <- Hfs. unfold Logger.log. cbn.
    by rewrite !lookup_insert_eq, app_nil.
  - intros p Hp.
    destruct (ops_open h ops w' (Logger.mk path true (Some path))
                (Logger.log_message timestamp "INFO" ("Logging started at " +:+ started)))
      as (_ & Ho & _); try done.
    { rewrite <- Hfs. unfold Logger.log. cbn. by rewrite !lookup_insert_eq, app_nil. }
    rewrite (Ho p Hp), <- Hfs. unfold Logger.log. cbn.
    by rewrite !lookup_insert_ne.
Qed.

Lemma log_file_is_transcript_witness :
  ∃ content,
    fs (fold_left (apply_log_op readonly_host)
                  [OpLog "t1" "DEBUG" "one"; OpClose; OpGet (Some "x.log") None "t2" "t3";
                   OpLog "t4" "ERROR" "two"]
                  (get_logger readonly_host (Some "/srv/logs/a.log") (Some true) "t0" "t0"
                              (mkLogWorld ∅ [] None)).2)
    !! "./super-shell-mcp.log" = Some content.
Proof.
  destruct (log_file_is_transcript readonly_host "/srv/logs/a.log" (Some true) "t0" "t0"
              (mkLogWorld ∅ [] None)
              (get_logger readonly_host (Some "/srv/logs/a.log") (Some true) "t0" "t0"
                          (mkLogWorld ∅ [] None)).2
              (Logger.mk "./super-shell-mcp.log" true (Some "./super-shell-mcp.log"))
              [OpLog "t1" "DEBUG" "one"; OpClose; OpGet (Some "x.log") None "t2" "t3";
               OpLog "t4" "ERROR" "two"])
    as (Hc & _).
  - reflexivity.
  - reflexivity.
  - reflexivity.
  - eexists. exact Hc.
Defined.

(** X22: a logger created disabled makes no directory, opens no file and
    prints nothing, and whatever is then called on the singleton, further
    [get_logger] calls asking for logging included, no file is touched and
    nothing is printed. *)
Theorem disabled_logger_is_inert (h : host) (c : ascii) (rest : string)
    (started timestamp : string) (w : log_world) (ops : list log_op) :
  _logger_instance w = None →
  let w' := (get_logger h (Some (String c rest)) (Some false) started timestamp w).2 in
  fs (fold_left (apply_log_op h) ops w') = fs w ∧
  err_lines (fold_left (apply_log_op h) ops w') = err_lines w ∧
  ∃ l, _logger_instance (fold_left (apply_log_op h) ops w') = Some l ∧
       Logger.log_file l = String c rest ∧
       (Logger.enabled l = false ∨ Logger.file_stream l = None).
Proof.
  intros Hn w'.
  assert (Hw' : w' = mkLogWorld (fs w) (err_lines w)
                                (Some (Logger.mk (String c rest) false None))).
  { subst w'. unfold get_logger. by rewrite Hn. }
  rewrite Hw'.
  destruct (ops_off h ops (mkLogWorld (fs w) (err_lines w)
                                      (Some (Logger.mk (String c rest) false None)))
                    (Logger.mk (String c rest) false None)) as (Hf & He & l & Hl);
    [done | by left |].
  rewrite Hf, He. eauto.
Qed.

Lemma disabled_logger_is_inert_witness :
  fs (fold_left (apply_log_op easy_host)
                [OpLog "t1" "INFO" "one"; OpGet (Some "b.log") (Some true) "t2" "t3"]
                (get_logger easy_host (Some "a.log") (Some false) "t0" "t0"
                            (mkLogWorld ∅ [] None)).2) = ∅.
Proof.
  destruct (disabled_logger_is_inert easy_host "a" ".log" "t0" "t0" (mkLogWorld ∅ [] None)
              [OpLog "t1" "INFO" "one"; OpGet (Some "b.log") (Some true) "t2" "t3"])
    as (Hf & _).
  - reflexivity.
  - exact Hf.
Defined.

(** ** The event emitter *)

Section EmitterFacts.

Context {C : Type} `{EqDecision C}.

Lemma list_remove_absent (x : C) (l : list C) :
  x ∉ l → EventEmitter.list_remove x l = None.
Proof.
  induction l as [|y l IH]; [done|]. intros Hn. apply not_elem_of_cons in Hn as [Hxy Hn].
  cbn. rewrite decide_False by done. by rewrite (IH Hn).
Qed.

Lemma list_remove_first (x : C) (l1 l2 : list C) :
  x ∉ l1 → EventEmitter.list_remove x (l1 ++ x :: l2) = Some (l1 ++ l2).
Proof.
  induction l1 as [|y l1 IH]; cbn.
  - intros _. by rewrite decide_True.
  - intros Hn. apply not_elem_of_cons in Hn as [Hxy Hn].
    rewrite decide_False by done. by rewrite (IH Hn).
Qed.

Lemma listeners_of_on (listeners : gmap string (list C)) (event ev : string) (cb : C) :
  EventEmitter.listeners_of (EventEmitter.on listeners event cb) ev
  = if decide (ev = event) then EventEmitter.listeners_of listeners ev ++ [cb]
    else EventEmitter.listeners_of listeners ev.
Proof.
  unfold EventEmitter.listeners_of, EventEmitter.on. case_decide as E.
  - subst. by rewrite lookup_insert_eq.
  - by rewrite lookup_insert_ne.
Qed.

Lemma off_first (listeners : gmap string (list C)) (event : string) (cb : C)
    (l1 l2 : list C) :
  EventEmitter.listeners_of listeners event = l1 ++ cb :: l2 → cb ∉ l1 →
  ∀ ev, EventEmitter.listeners_of (EventEmitter.off listeners event cb) ev
        = if decide (ev = event) then l1 ++ l2 else EventEmitter.listeners_of listeners ev.
Proof.
  intros Hl Hn ev. unfold EventEmitter.listeners_of in *. unfold EventEmitter.off.
  destruct (listeners !! event) as [l|] eqn:E; cbn in Hl.
  2:{ by destruct l1. }
  subst l. rewrite (list_remove_first cb l1 l2 Hn). case_decide as Eq.
  - subst. by rewrite lookup_insert_eq.
  - by rewrite lookup_insert_ne.
Qed.

End EmitterFacts.

(** X23: [on] appends the callback to the listeners of its event and leaves
    the other events alone; [off] removes the oldest registration of the
    callback and is the identity when the callback or the event is not
    registered. So [off] after [on] gives back the listeners of every event
    when the callback was not registered before, although the dictionary
    keeps the event with an empty list, and moves the callback to the end
    when it was: [emit] then calls the same callbacks in another order. *)
Theorem emitter_on_off {C : Type} `{EqDecision C} (listeners : gmap string (list C))
    (event : string) (cb : C) :
  (cb ∉ EventEmitter.listeners_of listeners event →
   EventEmitter.off listeners event cb = listeners ∧
   (∀ ev, EventEmitter.listeners_of
            (EventEmitter.off (EventEmitter.on listeners event cb) event cb) ev
          = EventEmitter.listeners_of listeners ev) ∧
   (∀ (P S : Type) (call : C → P → S → S) ev payload s,
       EventEmitter.emit call (EventEmitter.off (EventEmitter.on listeners event cb)
                                                event cb) ev payload s
       = EventEmitter.emit call listeners ev payload s) ∧
   (listeners !! event = None →
    EventEmitter.off (EventEmitter.on listeners event cb) event cb !! event = Some [])) ∧
  (∀ l1 l2, EventEmitter.listeners_of listeners event = l1 ++ cb :: l2 → cb ∉ l1 →
            EventEmitter.listeners_of (EventEmitter.off listeners event cb) event
            = l1 ++ l2 ∧
            EventEmitter.listeners_of
              (EventEmitter.off (EventEmitter.on listeners event cb) event cb) event
            = l1 ++ l2 ++ [cb]).
Proof.
  split.
  - intros Hn.
    assert (Hround : ∀ ev, EventEmitter.listeners_of
                             (EventEmitter.off (EventEmitter.on listeners event cb)
                                               event cb) ev
                           = EventEmitter.listeners_of listeners ev).
    { intros ev.
      rewrite (off_first (EventEmitter.on listeners event cb) event cb
                         (EventEmitter.listeners_of listeners event) []).
      - case_decide; [subst; by rewrite app_nil_r | ].
        rewrite listeners_of_on. by rewrite decide_False.
      - rewrite listeners_of_on. by rewrite decide_True.
      - exact Hn. }
    split; [|split; [exact Hround|split]].
    + unfold EventEmitter.off. unfold EventEmitter.listeners_of in Hn.
      destruct (listeners !! event) as [l|]; [|done]. cbn in Hn.
      by rewrite (list_remove_absent cb l Hn).
    + intros P S call ev payload s. unfold EventEmitter.emit. by rewrite Hround.
    + intros Hnone. unfold EventEmitter.off, EventEmitter.on.
      rewrite lookup_insert_eq, Hnone. cbn. rewrite decide_True by done.
      by rewrite lookup_insert_eq.
  - intros l1 l2 Hl Hn. split.
    + rewrite (off_first listeners event cb l1 l2 Hl Hn). by rewrite decide_True.
    + rewrite (off_first (EventEmitter.on listeners event cb) event cb l1 (l2 ++ [cb])).
      * by rewrite decide_True.
      * rewrite listeners_of_on, decide_True by done. rewrite Hl.
        by rewrite <- app_assoc.
      * exact Hn.
Qed.

Lemma emitter_on_off_witness :
  EventEmitter.listeners_of
    (EventEmitter.off (EventEmitter.on ({[ "e" := [1; 2; 1] ]} : gmap string (list nat))
                                       "e" 1) "e" 1) "e"
  = [] ++ [2; 1] ++ [1].
Proof.
  destruct (emitter_on_off ({[ "e" := [1; 2; 1] ]} : gmap string (list nat)) "e" 1)
    as [_ H].
  destruct (H [] [2; 1]) as [_ H2].
  - vm_compute. reflexivity.
  - apply not_elem_of_nil.
  - exact H2.
Defined.

Section Wiring.

Lemma main_listeners_of (e : event) :
  EventEmitter.listeners_of main_listeners (event_name e)
  = [match e with
     | EvPending _ => _on_pending
     | EvApproved _ _ _ => _on_approved
     | EvDenied _ _ => _on_denied
     | EvFailed _ _ => _on_failed
     | EvApprovalTimeout _ _ => _on_approval_timeout
     end].
Proof. destruct e; vm_compute; reflexivity. Qed.

Lemma emit_main (e : event) (d : dispatch) :
  EventEmitter.emit call_handler main_listeners (event_name e) e d = on_event d e.
Proof. unfold EventEmitter.emit. rewrite main_listeners_of. by destruct e. Qed.

End Wiring.

(** X24: with the five registrations of [main.py], emitting an event under
    the name [command_service.py] gives it calls exactly one listener, the
    one written for its payload, once; a name none of the five was
    registered under reaches no listener. So after any sequence of events
    the dispatch layer is in the state the five listeners, applied in
    order of emission, leave. *)
Theorem main_handlers_wired (events : list event) (d : dispatch) :
  (∀ e, EventEmitter.emit call_handler main_listeners (event_name e) e d = on_event d e) ∧
  (∀ name e, name ∉ event_name <$> [EvPending mkdir_record; EvApproved name [] [];
                                    EvDenied name name; EvFailed name (RuntimeError name);
                                    EvApprovalTimeout name name] →
             EventEmitter.emit call_handler main_listeners name e d = d) ∧
  fold_left (fun d e => EventEmitter.emit call_handler main_listeners (event_name e) e d)
            events d
  = fold_left on_event events d.
Proof.
  split; [intros e; apply emit_main|]. split.
  - intros name e Hn. cbn in Hn.
    repeat (apply not_elem_of_cons in Hn as [? Hn]).
    unfold EventEmitter.emit, EventEmitter.listeners_of, main_listeners, EventEmitter.on.
    cbn zeta. rewrite !lookup_insert_ne by done. by rewrite lookup_empty.
  - revert d. induction events as [|e events IH]; intros d; [done|].
    cbn [fold_left]. by rewrite emit_main, IH.
Qed.

Lemma main_handlers_wired_witness :
  EventEmitter.emit call_handler main_listeners "command:done" (EvDenied "id-1" "policy")
                    (dispatch_after [EvPending mkdir_record])
  = dispatch_after [EvPending mkdir_record].
Proof.
  destruct (main_handlers_wired [] (dispatch_after [EvPending mkdir_record]))
    as (_ & Hn & _).
  apply Hn. vm_compute. intros Hin.
  repeat (apply elem_of_cons in Hin as [Hin|Hin]; [discriminate|]).
  by apply elem_of_nil in Hin.
Defined.

(** ** The shell *)

Section ShellFacts.

Lemma init_shell (platform : PlatformType) (environ : string → option string)
    (shell_arg : option string) (timeout : Z) :
  shell (init platform environ shell_arg timeout)
  = match shell_arg with
    | Some (String c r) => String c r
    | _ => get_default_shell platform environ
    end.
Proof.
  unfold init, _initialize_default_whitelist.
  generalize (get_platform_specific_commands platform). intros l.
  match goal with |- context [fold_left ?f l ?s0] =>
    assert (H : ∀ s, shell (fold_left f l s) = shell s)
  end.
  { induction l as [|e l IH]; intros s; cbn; [done|]. by rewrite IH. }
  by rewrite H.
Qed.

Lemma reject_shell (p : Pending.t) (e : exn) (s : CommandService) :
  shell (reject p e s) = shell s.
Proof.
  unfold reject. destruct (Pending.handle p) as [fut|]; [|done].
  destruct (futures s !! fut) as [f|]; [|done]. by destruct (fut_done f).
Qed.

Lemma resolve_shell (p : Pending.t) (r : CommandResult) (s : CommandService) :
  shell (resolve p r s) = shell s.
Proof.
  unfold resolve. destruct (Pending.handle p) as [fut|]; [|done].
  destruct (futures s !! fut) as [f|]; [|done]. by destruct (fut_done f).
Qed.

Lemma step_shell (w w' : world) : step w w' → shell (svc w') = shell (svc w).
Proof.
  intros Hstep. destruct Hstep; cbn [svc].
  - destruct o as [entry|command|command level]; cbn; [done | done |].
    unfold update_security_level. by destruct (whitelist (svc w) !! command).
  - unfold execute_command. cbn zeta.
    by destruct (_validate_command _ _ _) as [[| |]|].
  - done.
  - by rewrite approve_command_state.
  - unfold approve_resume. destruct r as [e|res]; cbn [fst].
    + by rewrite reject_shell.
    + by rewrite resolve_shell.
  - unfold deny_command. cbn zeta.
    destruct (pending_commands (svc w) !! command_id); [|done].
    cbn [fst]. by rewrite reject_shell.
  - unfold fire_timer. destruct (timers (svc w) !! i) as [[d k]|]; [|done].
    unfold _timeout_check. cbn [pending_commands set_timers].
    by destruct (pending_commands (svc w) !! k).
Qed.

End ShellFacts.

(** X25: the shell of a service is fixed by its constructor: in every state
    reached from it the shell is the constructor's argument when that is a
    non-empty string, and otherwise the default of the detected platform,
    which is the environment variable when it is set, even to the empty
    string, so that the shell is empty exactly in that case. With the
    variable unset and no argument the shell is the first one suggested for
    the platform. Every command line is handed to that shell, with [/c]
    when [sys.platform] starts with [win32] and with [-c] otherwise. *)
Theorem service_shell_fixed (sys_platform : string) (environ : string → option string)
    (shell_arg : option string) (timeout : Z) (w : world) :
  rtc step (initial (detect_platform sys_platform) environ shell_arg timeout) w →
  shell (svc w) = match shell_arg with
                  | Some (String c r) => String c r
                  | _ => get_default_shell (detect_platform sys_platform) environ
                  end ∧
  (shell (svc w) = EmptyString ↔
   (shell_arg = None ∨ shell_arg = Some EmptyString) ∧
   ((detect_platform sys_platform = WINDOWS ∧ environ "COMSPEC" = Some EmptyString) ∨
    ((detect_platform sys_platform = LINUX ∨ detect_platform sys_platform = UNKNOWN) ∧
     environ "SHELL" = Some EmptyString))) ∧
  (environ "SHELL" = None → environ "COMSPEC" = None →
   shell_arg = None ∨ shell_arg = Some EmptyString →
   head (get_shell_suggestions (detect_platform sys_platform)) = Some (shell (svc w))) ∧
  (∀ command args,
      shell_cmd (detect_platform sys_platform) (svc w) command args
      = [shell (svc w);
         if String.prefix "win32" sys_platform then "/c" else "-c";
         PyStr.join " " (Shlex.quote command :: map Shlex.quote args)]).
Proof.
  intros Hr.
  assert (Hsh : shell (svc w)
                = match shell_arg with
                  | Some (String c r) => String c r
                  | _ => get_default_shell (detect_platform sys_platform) environ
                  end).
  { rewrite <- init_shell with (timeout := timeout).
    revert w Hr. apply rtc_ind_r; [done|].
    intros y z _ Hstep Hy. by rewrite (step_shell _ _ Hstep). }
  split; [exact Hsh|]. split; [|split].
  - rewrite Hsh. unfold get_default_shell.
    destruct shell_arg as [[|c r]|]; destruct (detect_platform sys_platform);
      destruct (environ "COMSPEC") as [[|? ?]|]; destruct (environ "SHELL") as [[|? ?]|];
      cbn; split; intros Hx; try discriminate;
      try (split; [by eauto | by eauto 6]);
      destruct Hx as [[Hx|Hx] [[Hy Hz]|[[Hy|Hy] Hz]]]; congruence.
  - intros Hs Hc Ha. rewrite Hsh. unfold get_default_shell. rewrite Hs, Hc.
    destruct Ha as [-> | ->]; by destruct (detect_platform sys_platform).
  - intros command args. unfold shell_cmd, detect_platform.
    destruct (String.prefix "win32" sys_platform); [done|].
    rewrite decide_False; [done|].
    destruct (String.prefix "darwin" sys_platform); [done|].
    by destruct (String.prefix "linux" sys_platform).
Qed.

Lemma service_shell_fixed_witness :
  shell (svc (mkWorld (deny_command (init (detect_platform "linux") (fun _ => Some EmptyString)
                                          None 30000) "id-1" None).1 ∅ []))
  = EmptyString.
Proof.
  destruct (service_shell_fixed "linux" (fun _ => Some EmptyString) None 30000
              (mkWorld (deny_command (init (detect_platform "linux")
                                           (fun _ => Some EmptyString) None 30000)
                                     "id-1" None).1 ∅ []))
    as (_ & He & _).
  - apply rtc_once.
    exact (step_deny (initial (detect_platform "linux") (fun _ => Some EmptyString) None
                              30000) "id-1" None).
  - apply He. split; [by left|]. right. split; [by left | reflexivity].
Defined.
